(** * obsidian-auto-card-link: URL classification and the paste/enhance handlers

    A shallow embedding of [src/settings.ts] (the regular expressions of
    [DEFAULT_SETTINGS]), [src/interfaces.ts] ([LinkMetadata]) and
    [src/main.ts] (the handlers and [getUrlFromLink]).

    JavaScript strings are sequences of UTF-16 code units; the regular
    expressions are run by a backtracking matcher that follows the
    ECMAScript pattern semantics (ordered alternation, greedy quantifiers,
    capture groups, negative lookahead, the [i] and [g] flags).

    [src/checkif] and [src/regex], which [src/main.ts] imports, are not
    among the sources: the classifier [CheckIf] is modelled from the
    specification over the patterns of [src/settings.ts], and the handlers
    take it as a parameter. *)

From Stdlib Require Import List NArith String Ascii Bool Arith Lia.
Import ListNotations.

Set Implicit Arguments.

(** ** JavaScript strings *)

Module Js.

Definition code_unit := N.
Definition jsstring := list code_unit.

(** The code units of an ASCII literal. *)
Definition js (s : string) : jsstring := map N_of_ascii (list_ascii_of_string s).
Arguments js s%_string.

Definition in_range (lo hi c : N) : bool := (lo <=? c)%N && (c <=? hi)%N.

(** ECMAScript WhiteSpace and LineTerminator code units: the set removed by
    [String.prototype.trim] and matched by the class escape [\s]. *)
Definition is_ws (c : code_unit) : bool :=
  in_range 9 13 c || (c =? 32)%N || (c =? 160)%N || (c =? 5760)%N
  || in_range 8192 8202 c || (c =? 8232)%N || (c =? 8233)%N
  || (c =? 8239)%N || (c =? 8287)%N || (c =? 12288)%N || (c =? 65279)%N.

Fixpoint trimStart (s : jsstring) : jsstring :=
  match s with
  | c :: s' => if is_ws c then trimStart s' else s
  | [] => []
  end.

Definition trimEnd (s : jsstring) : jsstring := rev (trimStart (rev s)).

Definition trim (s : jsstring) : jsstring := trimEnd (trimStart s).

(** A value read out of an array of strings: a string or [undefined]. *)
Inductive jsval :=
| JUndefined
| JString (s : jsstring).

(** The outcome of evaluating an expression: a value or a thrown error. *)
Inductive completion (A : Type) :=
| Normal (a : A)
| Throw (msg : string).
Arguments Normal {A} a.
Arguments Throw {A} msg.

End Js.
Import Js.

(** ** Regular expressions *)

Module RegExp.

(** A member of a character class: a single code unit, a range, or [\s]. *)
Inductive class_atom :=
| CaChar (c : code_unit)
| CaRange (lo hi : code_unit)
| CaSpace.

(** What consumes exactly one code unit: a pattern character or a class. *)
Inductive char_atom :=
| AChar (c : code_unit)
| AClass (neg : bool) (atoms : list class_atom).

(** The fragment of the ECMAScript pattern language that the patterns of
    [DEFAULT_SETTINGS] are written in.  Quantifiers are greedy and apply to
    single-character atoms, which is the only way the source uses them. *)
Inductive pattern :=
| REmpty
| RAtom (a : char_atom)
| RSeq (r1 r2 : pattern)
| RAlt (r1 r2 : pattern)
| RRep (min : nat) (max : option nat) (a : char_atom)
| RGroup (i : nat) (r : pattern)
| RNegLook (r : pattern)
| RBol
| REol.

(** The terms of an alternative, in sequence. *)
Fixpoint seq_of (terms : list pattern) : pattern :=
  match terms with
  | [] => REmpty
  | [t] => t
  | t :: ts => RSeq t (seq_of ts)
  end.

(** *** Case folding (the [i] flag)

    ECMAScript [Canonicalize] without the [u] flag upper-cases a code unit
    unless that would map a non-ASCII unit into ASCII.  On ASCII this is the
    definition below; a non-ASCII unit always stays non-ASCII, and since all
    the patterns are ASCII it is left where it is. *)
Definition canonicalize (c : code_unit) : code_unit :=
  if in_range 97 122 c then (c - 32)%N else c.

Definition to_lower (c : code_unit) : code_unit :=
  if in_range 65 90 c then (c + 32)%N else c.

Definition char_eq (ic : bool) (p x : code_unit) : bool :=
  if ic then (canonicalize x =? canonicalize p)%N else (x =? p)%N.

(** Membership of [x] in a class atom: with [ic], some member of the atom
    canonicalizes to what [x] canonicalizes to. *)
Definition class_atom_mem (ic : bool) (x : code_unit) (a : class_atom) : bool :=
  match a with
  | CaChar c => char_eq ic c x
  | CaRange lo hi =>
      if ic
      then in_range lo hi (canonicalize x) || in_range lo hi (to_lower (canonicalize x))
      else in_range lo hi x
  | CaSpace => is_ws x
  end.

Definition atom_matches (ic : bool) (a : char_atom) (x : code_unit) : bool :=
  match a with
  | AChar c => char_eq ic c x
  | AClass neg atoms => xorb neg (existsb (class_atom_mem ic x) atoms)
  end.

(** *** The backtracking matcher *)

(** A match state: the index reached, the input from there on, and the
    captures made so far (most recent first). *)
Record mstate := MState {
  ms_pos : nat;
  ms_rest : jsstring;
  ms_caps : list (nat * jsstring)
}.

Definition cont := mstate -> option mstate.

Definition max_allows (max : option nat) : bool :=
  match max with Some 0 => false | _ => true end.

Definition max_pred (max : option nat) : option nat :=
  match max with Some n => Some (pred n) | None => None end.

(** Greedy repetition of a single-character atom: take one more if allowed
    and possible, and only when that fails hand over to the continuation. *)
Fixpoint rep_greedy (ic : bool) (a : char_atom) (k : cont)
    (min : nat) (max : option nat) (pos : nat) (caps : list (nat * jsstring))
    (rest : jsstring) {struct rest} : option mstate :=
  let stop := match min with
              | 0 => k (MState pos rest caps)
              | S _ => None
              end in
  match rest with
  | [] => stop
  | x :: xs =>
      if max_allows max && atom_matches ic a x
      then match rep_greedy ic a k (pred min) (max_pred max) (S pos) caps xs with
           | Some r => Some r
           | None => stop
           end
      else stop
  end.

Fixpoint run (ic : bool) (r : pattern) (st : mstate) (k : cont) {struct r}
    : option mstate :=
  match r with
  | REmpty => k st
  | RAtom a =>
      match ms_rest st with
      | x :: xs =>
          if atom_matches ic a x
          then k (MState (S (ms_pos st)) xs (ms_caps st))
          else None
      | [] => None
      end
  | RSeq r1 r2 => run ic r1 st (fun st' => run ic r2 st' k)
  | RAlt r1 r2 =>
      match run ic r1 st k with
      | Some res => Some res
      | None => run ic r2 st k
      end
  | RRep min max a =>
      rep_greedy ic a k min max (ms_pos st) (ms_caps st) (ms_rest st)
  | RGroup i r1 =>
      run ic r1 st (fun st' =>
        k (MState (ms_pos st') (ms_rest st')
             ((i, firstn (ms_pos st' - ms_pos st) (ms_rest st)) :: ms_caps st')))
  | RNegLook r1 =>
      match run ic r1 st Some with
      | Some _ => None
      | None => k st
      end
  | RBol => if ms_pos st =? 0 then k st else None
  | REol => match ms_rest st with [] => k st | _ :: _ => None end
  end.

(** Number of capturing groups of a pattern. *)
Fixpoint ngroups (r : pattern) : nat :=
  match r with
  | RSeq r1 r2 | RAlt r1 r2 => ngroups r1 + ngroups r2
  | RGroup _ r1 => S (ngroups r1)
  | RNegLook r1 => ngroups r1
  | _ => 0
  end.

Fixpoint lookup_cap (i : nat) (caps : list (nat * jsstring)) : jsval :=
  match caps with
  | [] => JUndefined
  | (j, s) :: caps' => if j =? i then JString s else lookup_cap i caps'
  end.

(** The array a successful match produces: the matched text at index 0,
    then one entry per capturing group. *)
Definition match_array (r : pattern) (start : nat) (from : jsstring) (st : mstate)
    : list jsval :=
  JString (firstn (ms_pos st - start) from)
  :: map (fun i => lookup_cap i (ms_caps st)) (seq 1 (ngroups r)).

(** A compiled regular expression object: pattern and flags. *)
Record regexp := RegExpObj {
  re_pattern : pattern;
  re_ignoreCase : bool;
  re_global : bool
}.

(** First match at or after the current index, trying each start in turn. *)
Fixpoint search (re : regexp) (pos : nat) (rest : jsstring) {struct rest}
    : option (nat * jsstring * mstate) :=
  match run (re_ignoreCase re) (re_pattern re) (MState pos rest []) Some with
  | Some st => Some (pos, rest, st)
  | None =>
      match rest with
      | [] => None
      | _ :: rest' => search re (S pos) rest'
      end
  end.

(** [RegExp.prototype.exec] on a regular expression whose [lastIndex] is 0
    (always so for a freshly made or non-global one): [None] is [null]. *)
Definition exec (re : regexp) (s : jsstring) : option (list jsval) :=
  match search re 0 s with
  | Some (start, from, st) => Some (match_array (re_pattern re) start from st)
  | None => None
  end.

(** [RegExp.prototype.test], same proviso. *)
Definition test (re : regexp) (s : jsstring) : bool :=
  match exec re s with Some _ => true | None => false end.

(** [String.prototype.match] with a global regular expression: every
    match, left to right, each search resuming where the last match ended
    (one further on after an empty match).  [skip] counts the code units of
    the previous match still to be stepped over. *)
Fixpoint match_all_from (re : regexp) (skip pos : nat) (rest : jsstring)
    {struct rest} : list jsstring :=
  match skip with
  | S skip' =>
      match rest with
      | [] => []
      | _ :: rest' => match_all_from re skip' (S pos) rest'
      end
  | 0 =>
      match run (re_ignoreCase re) (re_pattern re) (MState pos rest []) Some with
      | Some st =>
          let len := ms_pos st - pos in
          firstn len rest ::
          match rest with
          | [] => []
          | _ :: rest' => match_all_from re (pred len) (S pos) rest'
          end
      | None =>
          match rest with
          | [] => []
          | _ :: rest' => match_all_from re 0 (S pos) rest'
          end
      end
  end.

Definition match_all (re : regexp) (s : jsstring) : list jsstring :=
  match_all_from re 0 0 s.

End RegExp.
Import RegExp.

(** ** Reading a pattern

    The patterns are kept as the text between the slashes of the source's
    regular-expression literals and read into a [pattern] by the parser below,
    so that each one can be compared with [src/settings.ts] letter by
    letter.  A pattern outside the modelled fragment does not parse. *)

Module Parse.

Local Open Scope char_scope.

Definition cu (a : ascii) : code_unit := N_of_ascii a.

Definition is_digit (a : ascii) : bool :=
  ((48 <=? nat_of_ascii a) && (nat_of_ascii a <=? 57))%nat.

Fixpoint parse_digits (acc : nat) (s : list ascii) : nat * list ascii :=
  match s with
  | a :: s' =>
      if is_digit a then parse_digits (10 * acc + (nat_of_ascii a - 48))%nat s'
      else (acc, s)
  | [] => (acc, s)
  end.

(** The characters a backslash may precede to stand for themselves. *)
Definition is_syntax_char (a : ascii) : bool :=
  existsb (Ascii.eqb a) (list_ascii_of_string "^$\.*+?()[]{}|/-").

Definition is_quantifier_start (a : ascii) : bool :=
  existsb (Ascii.eqb a) (list_ascii_of_string "*+?{").

Inductive class_unit :=
| CuChar (c : code_unit)
| CuSpace.

Definition parse_class_unit (s : list ascii) : option (class_unit * list ascii) :=
  match s with
  | "\" :: "s" :: s' => Some (CuSpace, s')
  | "\" :: a :: s' => if is_syntax_char a then Some (CuChar (cu a), s') else None
  | "]" :: _ => None
  | a :: s' => Some (CuChar (cu a), s')
  | [] => None
  end.

Definition cons_atom (a : class_atom) (r : option (list class_atom * list ascii))
    : option (list class_atom * list ascii) :=
  match r with
  | Some (l, s) => Some (a :: l, s)
  | None => None
  end.

(** The members of a class, up to and including the closing bracket. *)
Fixpoint parse_class_atoms (fuel : nat) (s : list ascii)
    : option (list class_atom * list ascii) :=
  match fuel with
  | O => None
  | S fuel' =>
      match s with
      | "]" :: s' => Some ([], s')
      | _ =>
          match parse_class_unit s with
          | None => None
          | Some (CuSpace, s1) => cons_atom CaSpace (parse_class_atoms fuel' s1)
          | Some (CuChar lo, s1) =>
              match s1 with
              | "-" :: "]" :: _ => cons_atom (CaChar lo) (parse_class_atoms fuel' s1)
              | "-" :: s2 =>
                  match parse_class_unit s2 with
                  | Some (CuChar hi, s3) =>
                      if (lo <=? hi)%N
                      then cons_atom (CaRange lo hi) (parse_class_atoms fuel' s3)
                      else None
                  | _ => None
                  end
              | _ => cons_atom (CaChar lo) (parse_class_atoms fuel' s1)
              end
          end
      end
  end.

(** A greedy quantifier, if one follows: [( min, max )]. *)
Definition parse_quantifier (s : list ascii)
    : option (option (nat * option nat) * list ascii) :=
  let lazy_check (q : nat * option nat) (s' : list ascii) :=
    match s' with
    | "?" :: _ => None
    | _ => Some (Some q, s')
    end in
  match s with
  | "*" :: s' => lazy_check (O, None) s'
  | "+" :: s' => lazy_check (1%nat, None) s'
  | "?" :: s' => lazy_check (O, Some 1%nat) s'
  | "{" :: s' =>
      match s' with
      | a :: _ =>
          if is_digit a then
            let (n, s1) := parse_digits O s' in
            match s1 with
            | "}" :: s2 => lazy_check (n, Some n) s2
            | "," :: "}" :: s2 => lazy_check (n, None) s2
            | "," :: s2 =>
                let (m, s3) := parse_digits O s2 in
                match s3 with
                | "}" :: s4 => if (n <=? m)%nat then lazy_check (n, Some m) s4 else None
                | _ => None
                end
            | _ => None
            end
          else None
      | [] => None
      end
  | _ => Some (None, s)
  end.

(** A single-character atom with the quantifier that may follow it. *)
Definition quantified (a : char_atom) (s : list ascii) (idx : nat)
    : option (pattern * list ascii * nat) :=
  match parse_quantifier s with
  | Some (Some (min, max), s') => Some (RRep min max a, s', idx)
  | Some (None, s') => Some (RAtom a, s', idx)
  | None => None
  end.

(** The parenthesis that closes a group or a lookahead; a quantifier after
    it is outside the fragment. *)
Definition close_group (r : pattern) (s : list ascii) (idx : nat)
    : option (pattern * list ascii * nat) :=
  match s with
  | ")" :: s' =>
      match s' with
      | a :: _ => if is_quantifier_start a then None else Some (r, s', idx)
      | [] => Some (r, s', idx)
      end
  | _ => None
  end.

(** Disjunction, Alternative and Term of the ECMAScript grammar; [idx] is
    the number the next capturing group gets. *)
Fixpoint parse_disjunction (fuel : nat) (s : list ascii) (idx : nat)
    : option (pattern * list ascii * nat) :=
  match fuel with
  | O => None
  | S fuel' =>
      match parse_alternative fuel' s idx with
      | Some (terms, "|" :: s1, idx1) =>
          match parse_disjunction fuel' s1 idx1 with
          | Some (r2, s2, idx2) => Some (RAlt (seq_of terms) r2, s2, idx2)
          | None => None
          end
      | Some (terms, s1, idx1) => Some (seq_of terms, s1, idx1)
      | None => None
      end
  end

with parse_alternative (fuel : nat) (s : list ascii) (idx : nat)
    : option (list pattern * list ascii * nat) :=
  match fuel with
  | O => None
  | S fuel' =>
      match s with
      | [] | "|" :: _ | ")" :: _ => Some ([], s, idx)
      | _ =>
          match parse_term fuel' s idx with
          | Some (t, s1, idx1) =>
              match parse_alternative fuel' s1 idx1 with
              | Some (ts, s2, idx2) => Some (t :: ts, s2, idx2)
              | None => None
              end
          | None => None
          end
      end
  end

with parse_term (fuel : nat) (s : list ascii) (idx : nat)
    : option (pattern * list ascii * nat) :=
  match fuel with
  | O => None
  | S fuel' =>
      match s with
      | "^" :: s' => Some (RBol, s', idx)
      | "$" :: s' => Some (REol, s', idx)
      | "(" :: "?" :: "!" :: s' =>
          match parse_disjunction fuel' s' idx with
          | Some (r, s1, idx1) => close_group (RNegLook r) s1 idx1
          | None => None
          end
      | "(" :: "?" :: ":" :: s' =>
          match parse_disjunction fuel' s' idx with
          | Some (r, s1, idx1) => close_group r s1 idx1
          | None => None
          end
      | "(" :: "?" :: _ => None
      | "(" :: s' =>
          match parse_disjunction fuel' s' (S idx) with
          | Some (r, s1, idx1) => close_group (RGroup idx r) s1 idx1
          | None => None
          end
      | "[" :: "^" :: s' =>
          match parse_class_atoms (List.length s') s' with
          | Some (atoms, s1) => quantified (AClass true atoms) s1 idx
          | None => None
          end
      | "[" :: s' =>
          match parse_class_atoms (List.length s') s' with
          | Some (atoms, s1) => quantified (AClass false atoms) s1 idx
          | None => None
          end
      | "\" :: "s" :: s' => quantified (AClass false [CaSpace]) s' idx
      | "\" :: a :: s' =>
          if is_syntax_char a then quantified (AChar (cu a)) s' idx else None
      | a :: s' =>
          if existsb (Ascii.eqb a) (list_ascii_of_string "*+?{}|)].\")
          then None
          else quantified (AChar (cu a)) s' idx
      | [] => None
      end
  end.

Definition has_flag (f : ascii) (flags : string) : bool :=
  existsb (Ascii.eqb f) (list_ascii_of_string flags).

(** The regular expression object a literal [/source/flags] evaluates to;
    a pattern that does not parse is a SyntaxError. *)
Definition RegExpCreate (source flags : string) : completion regexp :=
  let s := list_ascii_of_string source in
  match parse_disjunction (3 * List.length s + 3)%nat s 1%nat with
  | Some (r, [], _) => Normal (RegExpObj r (has_flag "i" flags) (has_flag "g" flags))
  | _ => Throw "SyntaxError"
  end.

End Parse.

(** ** src/interfaces.ts *)

Module Interfaces.

(** [LinkMetadata]: [description], [host] and [image] are optional. *)
Record LinkMetadata := {
  url : jsstring;
  title : jsstring;
  description : option jsstring;
  host : option jsstring;
  image : option jsstring;
  indent : nat
}.

End Interfaces.

(** ** src/settings.ts *)

Module Settings.

Local Open Scope string_scope.

Record ObsidianAutoCardLinkSettings := {
  regex : regexp;
  lineRegex : regexp;
  linkRegex : regexp;
  linkLineRegex : regexp;
  imageRegex : regexp;
  showInMenuItem : bool;
  enhanceDefaultPaste : bool
}.

(** The text of the five regular-expression literals of [DEFAULT_SETTINGS]. *)
Definition regex_source : string :=
  "^(https?:\/\/(?:www\.|(?!www))[a-zA-Z0-9][a-zA-Z0-9-]+[a-zA-Z0-9]\.[^\s]{2,}|www\.[a-zA-Z0-9][a-zA-Z0-9-]+[a-zA-Z0-9]\.[^\s]{2,}|https?:\/\/(?:www\.|(?!www))[a-zA-Z0-9]+\.[^\s]{2,}|www\.[a-zA-Z0-9]+\.[^\s]{2,})$".

Definition lineRegex_source : string :=
  "(https?:\/\/(?:www\.|(?!www))[a-zA-Z0-9][a-zA-Z0-9-]+[a-zA-Z0-9]\.[^\s]{2,}|www\.[a-zA-Z0-9][a-zA-Z0-9-]+[a-zA-Z0-9]\.[^\s]{2,}|https?:\/\/(?:www\.|(?!www))[a-zA-Z0-9]+\.[^\s]{2,}|www\.[a-zA-Z0-9]+\.[^\s]{2,})".

Definition linkRegex_source : string :=
  "^\[([^[\]]*)\]\((https?:\/\/(?:www\.|(?!www))[a-zA-Z0-9][a-zA-Z0-9-]+[a-zA-Z0-9]\.[^\s]{2,}|www\.[a-zA-Z0-9][a-zA-Z0-9-]+[a-zA-Z0-9]\.[^\s]{2,}|https?:\/\/(?:www\.|(?!www))[a-zA-Z0-9]+\.[^\s]{2,}|www\.[a-zA-Z0-9]+\.[^\s]{2,})\)$".

Definition linkLineRegex_source : string :=
  "\[([^[\]]*)\]\((https?:\/\/(?:www\.|(?!www))[a-zA-Z0-9][a-zA-Z0-9-]+[a-zA-Z0-9]\.[^\s]{2,}|www\.[a-zA-Z0-9][a-zA-Z0-9-]+[a-zA-Z0-9]\.[^\s]{2,}|https?:\/\/(?:www\.|(?!www))[a-zA-Z0-9]+\.[^\s]{2,}|www\.[a-zA-Z0-9]+\.[^\s]{2,})\)".

Definition imageRegex_source : string :=
  "\.(gif|jpe?g|tiff?|png|webp|bmp|tga|psd|ai)$".

(** The same patterns as syntax trees, built from their recurring parts
    ([literals_parse] below checks each against its text). *)

Definition chr (a : ascii) : pattern := RAtom (AChar (N_of_ascii a)).

Definition lit (s : string) : list pattern := map chr (list_ascii_of_string s).

(** [[a-zA-Z0-9]], [[a-zA-Z0-9-]], [[^\s]] and [[^[\]]]. *)
Definition alnum : char_atom :=
  AClass false [CaRange 97 122; CaRange 65 90; CaRange 48 57]%N.
Definition alnum_hyphen : char_atom :=
  AClass false [CaRange 97 122; CaRange 65 90; CaRange 48 57; CaChar 45]%N.
Definition non_space : char_atom := AClass true [CaSpace].
Definition non_bracket : char_atom := AClass true [CaChar 91; CaChar 93]%N.

(** [https?:\/\/] *)
Definition http_scheme : list pattern :=
  lit "http" ++ RRep 0 (Some 1) (AChar 115%N) :: lit "://".

(** [(?:www\.|(?!www))] *)
Definition www_guard : pattern :=
  RAlt (seq_of (lit "www.")) (RNegLook (seq_of (lit "www"))).

(** [[a-zA-Z0-9][a-zA-Z0-9-]+[a-zA-Z0-9]] and [[a-zA-Z0-9]+] *)
Definition long_label : list pattern :=
  [RAtom alnum; RRep 1 None alnum_hyphen; RAtom alnum].
Definition short_label : list pattern := [RRep 1 None alnum].

(** [\.[^\s]{2,}] *)
Definition url_tail : list pattern := [chr "."; RRep 2 None non_space].

(** The four alternatives shared by the first four patterns. *)
Definition url_body : pattern :=
  RAlt (seq_of (http_scheme ++ www_guard :: long_label ++ url_tail))
    (RAlt (seq_of (lit "www." ++ long_label ++ url_tail))
       (RAlt (seq_of (http_scheme ++ www_guard :: short_label ++ url_tail))
          (seq_of (lit "www." ++ short_label ++ url_tail)))).

(** [gif|jpe?g|tiff?|png|webp|bmp|tga|psd|ai] *)
Definition image_extension : pattern :=
  RAlt (seq_of (lit "gif"))
    (RAlt (seq_of (lit "jp" ++ RRep 0 (Some 1) (AChar 101%N) :: lit "g"))
       (RAlt (seq_of (lit "tif" ++ [RRep 0 (Some 1) (AChar 102%N)]))
          (RAlt (seq_of (lit "png"))
             (RAlt (seq_of (lit "webp"))
                (RAlt (seq_of (lit "bmp"))
                   (RAlt (seq_of (lit "tga"))
                      (RAlt (seq_of (lit "psd")) (seq_of (lit "ai"))))))))).

Definition link_terms : list pattern :=
  [chr "["; RGroup 1 (RRep 0 None non_bracket); chr "]"; chr "(";
   RGroup 2 url_body; chr ")"].

Definition DEFAULT_SETTINGS : ObsidianAutoCardLinkSettings := {|
  regex := RegExpObj (seq_of [RBol; RGroup 1 url_body; REol]) true false;
  lineRegex := RegExpObj (RGroup 1 url_body) true true;
  linkRegex := RegExpObj (seq_of (RBol :: link_terms ++ [REol])) true false;
  linkLineRegex := RegExpObj (seq_of link_terms) true true;
  imageRegex := RegExpObj (seq_of [chr "."; RGroup 1 image_extension; REol]) true false;
  showInMenuItem := true;
  enhanceDefaultPaste := true
|}.

End Settings.
Import Settings.

(** ** The URL classifier *)

Module CheckIf.

(** Modelled from the spec: [CheckIf.isUrl] of [src/checkif], which is not
    among the sources.  Spec 4.1: true iff the entire trimmed string matches
    the bare-URL grammar; the grammar is the anchored pattern
    [DEFAULT_SETTINGS.regex] of [src/settings.ts]. *)
Definition isUrl (text : jsstring) : bool :=
  test (regex DEFAULT_SETTINGS) (trim text).

(** Modelled from the spec: [CheckIf.isLinkedUrl] of [src/checkif].  Spec
    4.1: true iff the entire trimmed string is a link [[label](URL)]; the
    grammar is [DEFAULT_SETTINGS.linkRegex]. *)
Definition isLinkedUrl (text : jsstring) : bool :=
  test (linkRegex DEFAULT_SETTINGS) (trim text).

(** Modelled from the spec: [CheckIf.isImage] of [src/checkif].  Spec 4.1:
    true iff the string ends with one of the image extensions; the grammar
    is [DEFAULT_SETTINGS.imageRegex]. *)
Definition isImage (text : jsstring) : bool :=
  test (imageRegex DEFAULT_SETTINGS) text.

(** Modelled from the spec: the line-scan variant of spec 4.1, the same
    grammar unanchored and global ([DEFAULT_SETTINGS.lineRegex]), finding
    every URL of a text. *)
Definition scanLine (text : jsstring) : list jsstring :=
  match_all (lineRegex DEFAULT_SETTINGS) text.

End CheckIf.

(** ** src/main.ts *)

Module Main.

(** Modelled from the spec: the constant [linkRegex] that [src/main.ts]
    imports from [src/regex], which is not among the sources; the spec's
    bracketed-link grammar is the pattern [DEFAULT_SETTINGS.linkRegex]. *)
Definition linkRegex : regexp := Settings.linkRegex DEFAULT_SETTINGS.

(** [new RegExp(re)] on a regular expression object: a fresh object with the
    same pattern and flags (and [lastIndex] 0). *)
Definition newRegExp (re : regexp) : regexp :=
  RegExpObj (re_pattern re) (re_ignoreCase re) (re_global re).

(** The part of [getUrlFromLink] that follows the call of [exec]: [None] is
    [null]; reading index 2 of an array shorter than 3 gives [undefined]. *)
Definition urlOfExecArray (regExpExecArray : option (list jsval)) : jsval :=
  match regExpExecArray with
  | None => JString []
  | Some arr =>
      if List.length arr <? 2 then JString []
      else nth 2 arr JUndefined
  end.

Definition getUrlFromLink (link : jsstring) : jsval :=
  let urlRegex := newRegExp linkRegex in
  urlOfExecArray (exec urlRegex link).

(** What a handler does to its collaborators, in order:
    [editor.replaceSelection], [codeBlockGenerator.convertUrlToCodeBlock]
    (of [src/code_block_generator], only called here), and the two methods
    of the paste event. *)
Inductive action :=
| ReplaceSelection (text : jsstring)
| ConvertUrlToCodeBlock (url : jsval)
| StopPropagation
| PreventDefault.

Record DataTransfer := {
  files_length : nat;
  text_plain : jsstring
}.

Record ClipboardEvent := {
  clipboardData : option DataTransfer
}.

Section Handlers.

(** The classifier of [src/checkif], which the handlers only call. *)
Variables isUrl isLinkedUrl isImage : jsstring -> bool.

(** [x || ""] on a string or [undefined]. *)
Definition or_empty (v : jsval) : jsstring :=
  match v with
  | JUndefined => []
  | JString s => s
  end.

(** [selection] is what [EditorExtensions.getSelectedText(editor)] returned. *)
Definition enhanceSelectedURL (selection : jsval) : list action :=
  let selectedText := trim (or_empty selection) in
  if isUrl selectedText then
    [ConvertUrlToCodeBlock (JString selectedText)]
  else if isLinkedUrl selectedText then
    let url := getUrlFromLink selectedText in
    [ConvertUrlToCodeBlock url]
  else [].

(** [clipboardText] is what [navigator.clipboard.readText()] resolved to
    ([JUndefined] for [null]); [onLine] is [navigator.onLine]. *)
Definition manualPasteAndEnhanceURL (clipboardText : jsval) (onLine : bool)
    : list action :=
  match clipboardText with
  | JUndefined => []
  | JString [] => []
  | JString text =>
      if negb onLine then [ReplaceSelection text]
      else if negb (isUrl text) || isImage text then [ReplaceSelection text]
      else [ConvertUrlToCodeBlock (JString text)]
  end.

Definition onPaste (settings : option ObsidianAutoCardLinkSettings)
    (onLine : bool) (evt : ClipboardEvent) : list action :=
  if negb (match settings with
           | Some s => enhanceDefaultPaste s
           | None => false
           end) then []
  else if negb onLine then []
  else match clipboardData evt with
       | None => []
       | Some data =>
           if 0 <? files_length data then []
           else match text_plain data with
                | [] => []
                | text =>
                    if negb (isUrl text) || isImage text then []
                    else [StopPropagation; PreventDefault;
                          ConvertUrlToCodeBlock (JString text)]
                end
       end.

End Handlers.

End Main.

(** ** src/main.ts: the command, the menu and the editor lookup *)

Module Plugin.

Section Entry.

(** The host's editor, and what [EditorExtensions.getSelectedText] (of
    [src/editor_enhancements], only called here) returns for one. *)
Variable Editor : Type.
Variable getSelectedText : Editor -> jsval.

Variables isUrl isLinkedUrl isImage : jsstring -> bool.

Record MarkdownView := { editor : Editor }.

(** [activeView] is what [getActiveViewOfType(MarkdownView)] returned. *)
Definition getEditor (activeView : option MarkdownView) : option Editor :=
  match activeView with
  | None => None
  | Some view => Some (editor view)
  end.

(** The [editorCheckCallback] of the command
    [auto-card-link-enhance-selected-url]: what it returns ([None] for
    [undefined]) and what it does. *)
Definition enhanceSelectedCheckCallback (onLine checking : bool) (e : Editor)
    : option bool * list Main.action :=
  if negb onLine then (Some false, [])
  else if checking then (Some true, [])
  else (None, Main.enhanceSelectedURL isUrl isLinkedUrl (getSelectedText e)).

(** What a click on a menu item finds: the active view, the clipboard and
    [navigator.onLine] at that time. *)
Record click := {
  activeView : option MarkdownView;
  clipboardText : jsval;
  onLineNow : bool
}.

Record MenuItem := {
  title : string;
  icon : string;
  onClick : click -> list Main.action
}.

(** The items [onEditorMenu] adds to the menu, in order. *)
Definition onEditorMenu (settings : option ObsidianAutoCardLinkSettings)
    (onLine : bool) : list MenuItem :=
  if negb (match settings with
           | Some s => showInMenuItem s
           | None => false
           end) then []
  else
    {| title := "Paste URL and enhance to card link";
       icon := "paste";
       onClick := fun w =>
         match getEditor (activeView w) with
         | None => []
         | Some _ =>
             Main.manualPasteAndEnhanceURL isUrl isImage
               (clipboardText w) (onLineNow w)
         end |}
    :: (if negb onLine then []
        else
          [{| title := "Enhance selected URL to card link";
              icon := "link";
              onClick := fun w =>
                match getEditor (activeView w) with
                | None => []
                | Some e =>
                    Main.enhanceSelectedURL isUrl isLinkedUrl (getSelectedText e)
                end |}]).

End Entry.

End Plugin.

(** ** src/settings.ts: the setting tab *)

Module SettingTab.

(** A row of the tab; [toggle] is the value the toggle is set to, [None]
    when the plugin has no settings and the toggle is left as it is. *)
Record SettingRow := {
  name : string;
  desc : string;
  toggle : option bool
}.

Definition display (settings : option ObsidianAutoCardLinkSettings)
    : list SettingRow :=
  [{| name := "Enhance Default Paste";
      desc := "Fetch the link metadata when pasting a url in the editor with the default paste command";
      toggle := option_map enhanceDefaultPaste settings |};
   {| name := "Add commands in menu item";
      desc := "Whether to add commands in right click menu items";
      toggle := option_map showInMenuItem settings |}].

(** The two [onChange] handlers: the plugin's settings afterwards, and what
    [saveSettings] handed to [saveData]. *)
Definition onChangeEnhanceDefaultPaste
    (settings : option ObsidianAutoCardLinkSettings) (value : bool)
    : option ObsidianAutoCardLinkSettings * list ObsidianAutoCardLinkSettings :=
  match settings with
  | None => (None, [])
  | Some s =>
      let s' := {| regex := regex s; lineRegex := lineRegex s;
                   linkRegex := linkRegex s; linkLineRegex := linkLineRegex s;
                   imageRegex := imageRegex s;
                   showInMenuItem := showInMenuItem s;
                   enhanceDefaultPaste := value |} in
      (Some s', [s'])
  end.

Definition onChangeShowInMenuItem
    (settings : option ObsidianAutoCardLinkSettings) (value : bool)
    : option ObsidianAutoCardLinkSettings * list ObsidianAutoCardLinkSettings :=
  match settings with
  | None => (None, [])
  | Some s =>
      let s' := {| regex := regex s; lineRegex := lineRegex s;
                   linkRegex := linkRegex s; linkLineRegex := linkLineRegex s;
                   imageRegex := imageRegex s;
                   showInMenuItem := value;
                   enhanceDefaultPaste := enhanceDefaultPaste s |} in
      (Some s', [s'])
  end.

End SettingTab.

(** ** What a pattern matches, stated without the search order

    [Match ic r st st'] says that some way of matching [r] leads from the
    state [st] to the state [st'].  The matcher [run] finds the first such
    way in backtracking order ([run_sound], [run_complete]). *)

Module Sem.

(** [st'] is [st] after reading [u], captures untouched. *)
Definition consumes (st : mstate) (u : jsstring) (st' : mstate) : Prop :=
  ms_rest st = u ++ ms_rest st'
  /\ ms_pos st' = ms_pos st + List.length u
  /\ ms_caps st' = ms_caps st.

Definition within_max (n : nat) (max : option nat) : Prop :=
  match max with
  | Some m => n <= m
  | None => True
  end.

Fixpoint Match (ic : bool) (r : pattern) (st st' : mstate) {struct r} : Prop :=
  match r with
  | REmpty => st' = st
  | RAtom a => exists x, consumes st [x] st' /\ atom_matches ic a x = true
  | RSeq r1 r2 => exists mid, Match ic r1 st mid /\ Match ic r2 mid st'
  | RAlt r1 r2 => Match ic r1 st st' \/ Match ic r2 st st'
  | RRep min max a =>
      exists u, consumes st u st'
        /\ forallb (atom_matches ic a) u = true
        /\ min <= List.length u /\ within_max (List.length u) max
  | RGroup i r1 =>
      exists mid, Match ic r1 st mid
        /\ st' = MState (ms_pos mid) (ms_rest mid)
                   ((i, firstn (ms_pos mid - ms_pos st) (ms_rest st)) :: ms_caps mid)
  | RNegLook r1 => st' = st /\ ~ (exists mid, Match ic r1 st mid)
  | RBol => st' = st /\ ms_pos st = 0
  | REol => st' = st /\ ms_rest st = []
  end.

(** A list of terms matched one after the other. *)
Fixpoint MatchList (ic : bool) (ts : list pattern) (st st' : mstate) : Prop :=
  match ts with
  | [] => st' = st
  | t :: ts' => exists mid, Match ic t st mid /\ MatchList ic ts' mid st'
  end.

(** Every alternative of the pattern ends in an unbounded repetition of [a]. *)
Fixpoint ends_greedy (a : char_atom) (r : pattern) : Prop :=
  match r with
  | RSeq _ r2 => ends_greedy a r2
  | RAlt r1 r2 => ends_greedy a r1 /\ ends_greedy a r2
  | RRep _ None a' => a' = a
  | RGroup _ r1 => ends_greedy a r1
  | _ => False
  end.

End Sem.
Import Sem.

(** ** The grammars, spelled out

    What the patterns accept, as statements about the string itself.  The
    [spec_] versions follow the wording of the specification where it
    differs. *)

Module Grammar.

(** [u] is [s] up to the case of ASCII letters. *)
Definition ci_eq (u : jsstring) (s : string) : Prop :=
  map canonicalize u = map canonicalize (js s).
Arguments ci_eq u s%_string.

Definition is_alnum (c : code_unit) : bool :=
  in_range 48 57 c || in_range 65 90 c || in_range 97 122 c.

Definition is_label_char (c : code_unit) : bool := is_alnum c || (c =? 45)%N.

Definition is_bracket (c : code_unit) : bool := (c =? 91)%N || (c =? 93)%N.

(** A host label: letters, digits and hyphens, a letter or digit at either
    end (so never empty). *)
Definition is_label (l : jsstring) : bool :=
  forallb is_label_char l && is_alnum (hd 45%N l) && is_alnum (last l 45%N).

(** What follows the first dot: two or more units, none of them white space. *)
Definition is_tail (t : jsstring) : bool :=
  (2 <=? List.length t)%nat && forallb (fun c => negb (is_ws c)) t.

(** The prefixes the pattern admits before the label [l]: [www.], a scheme
    followed by [www.], or a scheme alone when [l] does not itself begin
    with [www]. *)
Definition url_prefix (p l : jsstring) : Prop :=
  ci_eq p "www." \/ ci_eq p "http://www." \/ ci_eq p "https://www."
  \/ ((ci_eq p "http://" \/ ci_eq p "https://") /\ ~ ci_eq (firstn 3%nat l) "www").

Definition bare_url (u : jsstring) : Prop :=
  exists p l t,
    u = p ++ l ++ 46%N :: t
    /\ url_prefix p l /\ is_label l = true /\ is_tail t = true.

(** Spec 4.1, in its words: an optional [http://] or [https://], or a bare
    [www.]; then a label, a dot, and two or more units that are not white
    space (the TLD and what follows it).  The prefix may be missing, and
    nothing is said of a label that begins with [www]. *)
Definition spec_url_prefix (p : jsstring) : Prop :=
  p = [] \/ ci_eq p "http://" \/ ci_eq p "https://" \/ ci_eq p "www.".

Definition spec_bare_url (u : jsstring) : Prop :=
  exists p l t,
    u = p ++ l ++ 46%N :: t
    /\ spec_url_prefix p /\ is_label l = true /\ is_tail t = true.

(** [[label](URL)] with no bracket at all in the label. *)
Definition linked_url (s : jsstring) : Prop :=
  exists label u,
    s = 91%N :: label ++ 93%N :: 40%N :: u ++ [41%N]
    /\ forallb (fun c => negb (is_bracket c)) label = true
    /\ bare_url u.

(** Spec 4.1, in its words: no unescaped bracket in the label, a bracket
    being escaped by a backslash before it. *)
Fixpoint no_unescaped_brackets (escaped : bool) (l : jsstring) : bool :=
  match l with
  | [] => true
  | c :: l' =>
      if escaped then no_unescaped_brackets false l'
      else if (c =? 92)%N then no_unescaped_brackets true l'
      else negb (is_bracket c) && no_unescaped_brackets false l'
  end.

Definition spec_linked_url (s : jsstring) : Prop :=
  exists label u,
    s = 91%N :: label ++ 93%N :: 40%N :: u ++ [41%N]
    /\ no_unescaped_brackets false label = true
    /\ spec_bare_url u.

(** The extensions of spec 4.1. *)
Definition image_extensions : list string :=
  ["gif"; "jpg"; "jpeg"; "tiff"; "tif"; "png"; "webp"; "bmp"; "tga"; "psd"; "ai"]%string.

(** [s] ends in a dot and one of the extensions, whatever the case. *)
Definition ends_with_image_extension (s : jsstring) : Prop :=
  exists pre suf ext,
    s = pre ++ 46%N :: suf /\ In ext image_extensions /\ ci_eq suf ext.

(** Spec 4.1, in its words, speaks of the string's path.  The path of a URL
    is what comes after the scheme ([...://]) and the authority, up to the
    query ([?]) or the fragment ([#]). *)
Fixpoint after_scheme (s : jsstring) : option jsstring :=
  match s with
  | a :: ((b :: c :: r) as s') =>
      if ((a =? 58) && (b =? 47) && (c =? 47))%N then Some r
      else after_scheme s'
  | _ => None
  end.

Fixpoint from_path (s : jsstring) : jsstring :=
  match s with
  | [] => []
  | c :: r =>
      if ((c =? 47) || (c =? 63) || (c =? 35))%N then s else from_path r
  end.

Fixpoint until_query (s : jsstring) : jsstring :=
  match s with
  | [] => []
  | c :: r =>
      if ((c =? 63) || (c =? 35))%N then [] else c :: until_query r
  end.

Definition spec_url_path (s : jsstring) : jsstring :=
  until_query (from_path (match after_scheme s with
                          | Some r => r
                          | None => s
                          end)).

(** Spec 4.1, in its words: the string's path ends with one of the
    extensions. *)
Definition spec_is_image (s : jsstring) : Prop :=
  ends_with_image_extension (spec_url_path s).

End Grammar.
Import Grammar.

(** Notions used to take the patterns apart. *)

Module Lang.

(** [ts] reads exactly the strings of [L], whatever the state around. *)
Definition recognizes (ts : list pattern) (L : jsstring -> Prop) : Prop :=
  forall st st', MatchList true ts st st' <-> exists u, consumes st u st' /\ L u.

(** [st'] is [st] after reading [u] and recording the captures [cs]. *)
Definition steps (st : mstate) (u : jsstring) (cs : list (nat * jsstring))
    (st' : mstate) : Prop :=
  ms_rest st = u ++ ms_rest st'
  /\ ms_pos st' = ms_pos st + List.length u
  /\ ms_caps st' = cs ++ ms_caps st.

(** The same for terms that capture: [L u cs] gives the captures made
    while reading [u]. *)
Definition recognizes_caps (ts : list pattern)
    (L : jsstring -> list (nat * jsstring) -> Prop) : Prop :=
  forall st st',
    MatchList true ts st st' <-> exists u cs, steps st u cs st' /\ L u cs.

(** A continuation that accepts any state and leaves the input alone. *)
Definition final_cont (k : cont) : Prop :=
  forall st, exists res, k st = Some res /\ ms_rest res = ms_rest st.

(** The strings of [[a-zA-Z0-9][a-zA-Z0-9-]+[a-zA-Z0-9]] and of
    [[a-zA-Z0-9]+]. *)
Definition long_lang (l : jsstring) : Prop :=
  exists a m b,
    l = a :: m ++ [b]
    /\ is_alnum a = true /\ forallb is_label_char m = true
    /\ 1 <= List.length m /\ is_alnum b = true.

Definition short_lang (l : jsstring) : Prop :=
  forallb is_alnum l = true /\ 1 <= List.length l.

(** A label of the given kind, a dot, and the tail. *)
Definition label_tail_lang (lab : jsstring -> Prop) (v : jsstring) : Prop :=
  exists l t, v = l ++ 46%N :: t /\ lab l /\ is_tail t = true.

Definition scheme (p : jsstring) : Prop := ci_eq p "http://" \/ ci_eq p "https://".

Definition scheme_www (p : jsstring) : Prop :=
  ci_eq p "http://www." \/ ci_eq p "https://www.".

(** What [link_terms] reads and captures. *)
Definition link_lang (u : jsstring) (cs : list (nat * jsstring)) : Prop :=
  exists label url,
    u = 91%N :: label ++ 93%N :: 40%N :: url ++ [41%N]
    /\ cs = [(2, url); (1, label)]
    /\ forallb (fun c => negb (is_bracket c)) label = true
    /\ bare_url url.

Definition no_ws (u : jsstring) : bool := forallb (fun c => negb (is_ws c)) u.

(** [r] is empty or begins with white space. *)
Definition ws_or_end (r : jsstring) : Prop :=
  match r with
  | x :: _ => is_ws x = true
  | [] => True
  end.

End Lang.
Import Lang.

(** Notions used for the further properties. *)

Module Scan.

(** Two states at the same index whose remaining inputs differ only in the
    case of ASCII letters. *)
Definition same_fold (st st' : mstate) : Prop :=
  ms_pos st = ms_pos st'
  /\ map canonicalize (ms_rest st) = map canonicalize (ms_rest st').

Definition same_fold_opt (o o' : option mstate) : Prop :=
  match o, o' with
  | None, None => True
  | Some r, Some r' => same_fold r r'
  | _, _ => False
  end.

(** No [c] can be reached in [rest] through units that [a] matches. *)
Definition unreachable (ic : bool) (a : char_atom) (c : code_unit)
    (rest : jsstring) : Prop :=
  forall u rest',
    rest = u ++ c :: rest' -> forallb (atom_matches ic a) u = true -> False.

(** A continuation that reads the unit [c] and nothing else, and accepts
    whenever [c] is next. *)
Definition reads_unit (c : code_unit) (k : cont) : Prop :=
  (forall st res, k st = Some res -> ms_rest st = c :: ms_rest res)
  /\ (forall st rest', ms_rest st = c :: rest' -> k st <> None).

(** URLs, each followed by its gap, one after the other. *)
Definition spaced (items : list (jsstring * jsstring)) : jsstring :=
  List.concat (map (fun p => fst p ++ snd p) items).

(** [pre] is empty or ends in white space. *)
Definition ends_in_space (pre : jsstring) : Prop := ws_or_end (rev pre).

(** [x] holds a unit that is not white space. *)
Definition has_word (x : jsstring) : bool := negb (forallb is_ws x).

(** The units of [x] that are not white space. *)
Definition ink (x : jsstring) : jsstring :=
  filter (fun c => negb (is_ws c)) x.

End Scan.
Import Scan.

(** * Theorems *)

(** ** The matcher against the declarative reading of patterns *)

Section MatcherCorrect.

Variable ic : bool.

Lemma consumes_nil st : consumes st [] st.
Proof. unfold consumes; simpl; auto. Qed.

Lemma consumes_app st u mid v st' :
  consumes st u mid -> consumes mid v st' -> consumes st (u ++ v) st'.
Proof.
  intros (R1 & P1 & C1) (R2 & P2 & C2). unfold consumes.
  rewrite R1, R2, P2, P1, C2, C1, length_app, <- app_assoc.
  repeat split; lia.
Qed.

Lemma rep_greedy_sound a k rest :
  forall min max pos caps res,
    rep_greedy ic a k min max pos caps rest = Some res ->
    exists u rest',
      rest = u ++ rest'
      /\ forallb (atom_matches ic a) u = true
      /\ min <= List.length u /\ within_max (List.length u) max
      /\ k (MState (pos + List.length u) rest' caps) = Some res.
Proof.
  assert (Stop : forall min max pos caps res rest0,
    match min with 0 => k (MState pos rest0 caps) | S _ => None end = Some res ->
    exists u rest',
      rest0 = u ++ rest'
      /\ forallb (atom_matches ic a) u = true
      /\ min <= List.length u /\ within_max (List.length u) max
      /\ k (MState (pos + List.length u) rest' caps) = Some res).
  { intros min max pos caps res rest0 H. destruct min; [|discriminate].
    exists [], rest0. simpl. rewrite Nat.add_0_r.
    repeat split; auto. destruct max; simpl; lia. }
  induction rest as [|x xs IH]; intros min max pos caps res H; simpl in H.
  - eapply Stop; eauto.
  - destruct (max_allows max && atom_matches ic a x) eqn:E.
    + apply andb_prop in E. destruct E as [Emax Ex].
      destruct (rep_greedy ic a k (pred min) (max_pred max) (S pos) caps xs) eqn:R.
      * inversion H; subst m. apply IH in R.
        destruct R as (u & rest' & -> & Hall & Hmin & Hmax & Hk).
        exists (x :: u), rest'. simpl. rewrite Ex, Hall.
        replace (pos + S (List.length u)) with (S pos + List.length u) by lia.
        repeat split; auto; try lia.
        destruct max as [[|m]|]; simpl in *; try discriminate; auto; lia.
      * eapply Stop; eauto.
    + eapply Stop; eauto.
Qed.

Lemma rep_greedy_complete a k u :
  forall rest' min max pos caps,
    forallb (atom_matches ic a) u = true ->
    min <= List.length u -> within_max (List.length u) max ->
    k (MState (pos + List.length u) rest' caps) <> None ->
    rep_greedy ic a k min max pos caps (u ++ rest') <> None.
Proof.
  induction u as [|x u IH]; intros rest' min max pos caps Hall Hmin Hmax Hk.
  - simpl in *. rewrite Nat.add_0_r in Hk.
    assert (min = 0) by lia; subst min.
    destruct rest' as [|y ys]; simpl; auto.
    destruct (max_allows max && atom_matches ic a y); auto.
    destruct (rep_greedy ic a k 0 (max_pred max) (S pos) caps ys); auto.
    discriminate.
  - simpl in Hall. apply andb_prop in Hall. destruct Hall as [Hx Hall].
    simpl. rewrite Hx.
    assert (Emax : max_allows max = true).
    { destruct max as [[|m]|]; simpl in *; auto; lia. }
    rewrite Emax. simpl.
    assert (R : rep_greedy ic a k (pred min) (max_pred max) (S pos) caps (u ++ rest')
                <> None).
    { apply IH; auto.
      - simpl in Hmin. lia.
      - destruct max as [m|]; simpl in *; auto; lia.
      - simpl in Hk. replace (S pos + List.length u) with (pos + S (List.length u)) by lia.
        exact Hk. }
    destruct (rep_greedy ic a k (pred min) (max_pred max) (S pos) caps (u ++ rest'));
      [discriminate | contradiction].
Qed.

(** With nothing left to do afterwards, an unbounded greedy repetition stops
    only where the atom no longer matches. *)
Lemma rep_greedy_maximal a k rest :
  final_cont k ->
  forall min pos caps res,
    rep_greedy ic a k min None pos caps rest = Some res ->
    match ms_rest res with
    | x :: _ => atom_matches ic a x = false
    | [] => True
    end.
Proof.
  intros Hk.
  assert (Hk' : forall st res, k st = Some res -> ms_rest res = ms_rest st).
  { intros st res E. destruct (Hk st) as (res' & E' & R). congruence. }
  induction rest as [|x xs IH]; intros min pos caps res H; simpl in H.
  - destruct min; [|discriminate]. apply Hk' in H. simpl in H. rewrite H. exact I.
  - destruct (atom_matches ic a x) eqn:Ex; simpl in H.
    + destruct (rep_greedy ic a k (pred min) None (S pos) caps xs) eqn:R.
      * inversion H; subst m. eapply IH; eauto.
      * destruct min as [|[|min]]; try discriminate; exfalso; revert R;
          apply rep_greedy_complete with (u := []);
          [reflexivity | simpl; lia | exact I | ];
          destruct (Hk (MState (S pos + List.length (@nil code_unit)) xs caps))
            as (r & E & _); congruence.
    + destruct min; [|discriminate]. apply Hk' in H. simpl in H. rewrite H. exact Ex.
Qed.

Theorem run_correct r :
  (forall st k res, run ic r st k = Some res ->
     exists st', Match ic r st st' /\ k st' = Some res)
  /\ (forall st st' k, Match ic r st st' -> k st' <> None ->
       run ic r st k <> None).
Proof.
  induction r as [ | a | r1 [S1 C1] r2 [S2 C2] | r1 [S1 C1] r2 [S2 C2]
                 | min max a | i r1 [S1 C1] | r1 [S1 C1] | | ]; simpl; split.
  - (* REmpty *) intros st k res H. eauto.
  - intros st st' k -> H. exact H.
  - (* RAtom *) intros [pos rest caps] k res H. simpl in H.
    destruct rest as [|x xs]; [discriminate|].
    destruct (atom_matches ic a x) eqn:Ex; [|discriminate].
    eexists. split; [|exact H]. exists x. split; auto.
    unfold consumes; simpl. repeat split; lia.
  - intros [pos rest caps] [pos' rest' caps'] k (x & (R & P & C) & Ex) H.
    simpl in *. subst. simpl. rewrite Ex.
    replace (S pos) with (pos + 1) by lia. exact H.
  - (* RSeq *) intros st k res H.
    apply S1 in H. destruct H as (mid & M1 & H).
    apply S2 in H. destruct H as (st' & M2 & H). eauto.
  - intros st st' k (mid & M1 & M2) H.
    eapply C1; eauto.
  - (* RAlt *) intros st k res H.
    destruct (run ic r1 st k) eqn:E1.
    + inversion H; subst m. apply S1 in E1. destruct E1 as (st' & M & Hk). eauto.
    + apply S2 in H. destruct H as (st' & M & Hk). eauto.
  - intros st st' k [M | M] H.
    + pose proof (C1 _ _ _ M H) as N.
      destruct (run ic r1 st k); [discriminate | contradiction].
    + destruct (run ic r1 st k); [discriminate | eauto].
  - (* RRep *) intros [pos rest caps] k res H. simpl in H.
    apply rep_greedy_sound in H.
    destruct H as (u & rest' & -> & Hall & Hmin & Hmax & Hk).
    eexists. split; [|exact Hk]. exists u. unfold consumes; simpl. auto.
  - intros [pos rest caps] [pos' rest' caps'] k
      (u & (R & P & C) & Hall & Hmin & Hmax) H.
    simpl in *. subst. apply rep_greedy_complete; auto.
  - (* RGroup *) intros st k res H.
    apply S1 in H. destruct H as (mid & M & Hk). eauto.
  - intros st st' k (mid & M & ->) H.
    eapply C1; eauto.
  - (* RNegLook *) intros st k res H.
    destruct (run ic r1 st Some) eqn:E; [discriminate|].
    exists st. repeat split; auto.
    intros (mid & M). revert E. eapply C1; eauto. discriminate.
  - intros st st' k (-> & N) H.
    destruct (run ic r1 st Some) eqn:E; auto.
    exfalso. apply N. apply S1 in E. destruct E as (mid & M & _). eauto.
  - (* RBol *) intros st k res H.
    destruct (ms_pos st =? 0) eqn:E; [|discriminate].
    apply Nat.eqb_eq in E. eauto.
  - intros st st' k (-> & E) H. rewrite E. exact H.
  - (* REol *) intros st k res H.
    destruct (ms_rest st) eqn:E; [|discriminate]. eauto.
  - intros st st' k (-> & E) H. rewrite E. exact H.
Qed.

Lemma run_sound r st k res :
  run ic r st k = Some res -> exists st', Match ic r st st' /\ k st' = Some res.
Proof. apply run_correct. Qed.

Lemma run_complete r st st' k :
  Match ic r st st' -> k st' <> None -> run ic r st k <> None.
Proof. apply run_correct. Qed.

End MatcherCorrect.

(** ** The character classes of the patterns *)

Lemma in_range_spec lo hi c : in_range lo hi c = true <-> (lo <= c <= hi)%N.
Proof.
  unfold in_range. rewrite andb_true_iff, !N.leb_le. tauto.
Qed.

Lemma in_range_false lo hi c : in_range lo hi c = false <-> ~ (lo <= c <= hi)%N.
Proof.
  rewrite <- in_range_spec. destruct (in_range lo hi c); split; intuition congruence.
Qed.

Lemma canonicalize_cases x :
  ((97 <= x <= 122)%N /\ canonicalize x = (x - 32)%N)
  \/ (~ (97 <= x <= 122)%N /\ canonicalize x = x).
Proof.
  unfold canonicalize. destruct (in_range 97 122 x) eqn:E.
  - left. apply in_range_spec in E. auto.
  - right. apply in_range_false in E. auto.
Qed.

Lemma to_lower_cases x :
  ((65 <= x <= 90)%N /\ to_lower x = (x + 32)%N)
  \/ (~ (65 <= x <= 90)%N /\ to_lower x = x).
Proof.
  unfold to_lower. destruct (in_range 65 90 x) eqn:E.
  - left. apply in_range_spec in E. auto.
  - right. apply in_range_false in E. auto.
Qed.

Lemma char_matches c x :
  atom_matches true (AChar c) x = (canonicalize x =? canonicalize c)%N.
Proof. reflexivity. Qed.

Lemma alnum_matches x : atom_matches true alnum x = is_alnum x.
Proof.
  apply eq_iff_eq_true.
  unfold alnum, is_alnum, atom_matches, existsb, class_atom_mem. simpl xorb.
  rewrite !orb_true_iff, !in_range_spec.
  destruct (canonicalize_cases x) as [[H ->] | [H ->]];
    [destruct (to_lower_cases (x - 32)) as [[H' ->] | [H' ->]]
    | destruct (to_lower_cases x) as [[H' ->] | [H' ->]]];
    split; intros; try lia.
Qed.

Lemma alnum_hyphen_matches x : atom_matches true alnum_hyphen x = is_label_char x.
Proof.
  apply eq_iff_eq_true.
  unfold alnum_hyphen, is_label_char, is_alnum, atom_matches, existsb,
    class_atom_mem, char_eq. simpl xorb.
  rewrite !orb_true_iff, !in_range_spec, !N.eqb_eq.
  change (canonicalize 45%N) with 45%N.
  destruct (canonicalize_cases x) as [[H ->] | [H ->]];
    [destruct (to_lower_cases (x - 32)) as [[H' ->] | [H' ->]]
    | destruct (to_lower_cases x) as [[H' ->] | [H' ->]]];
    split; intros; try lia.
Qed.

Lemma non_space_matches x : atom_matches true non_space x = negb (is_ws x).
Proof.
  unfold non_space, atom_matches, existsb, class_atom_mem.
  rewrite orb_false_r. apply xorb_true_l.
Qed.

Lemma non_bracket_matches x : atom_matches true non_bracket x = negb (is_bracket x).
Proof.
  unfold non_bracket, is_bracket, atom_matches, existsb, class_atom_mem, char_eq.
  rewrite orb_false_r, xorb_true_l. f_equal.
  change (canonicalize 91%N) with 91%N. change (canonicalize 93%N) with 93%N.
  apply eq_iff_eq_true. rewrite !orb_true_iff, !N.eqb_eq.
  destruct (canonicalize_cases x) as [[H ->] | [H ->]]; lia.
Qed.

(** ** Sequences of terms and the strings they read *)

Lemma consumes_nil_inv st st' : consumes st [] st' -> st' = st.
Proof.
  destruct st, st'. unfold consumes; simpl. intros (-> & -> & ->).
  f_equal. lia.
Qed.

Lemma consumes_split st u v st' :
  consumes st (u ++ v) st' ->
  exists mid, consumes st u mid /\ consumes mid v st'.
Proof.
  intros (R & P & C).
  exists (MState (ms_pos st + List.length u) (v ++ ms_rest st') (ms_caps st)).
  unfold consumes; simpl. rewrite R, P, C, length_app, <- app_assoc.
  repeat split; lia.
Qed.

Lemma Match_seq_of ic ts :
  forall st st', Match ic (seq_of ts) st st' <-> MatchList ic ts st st'.
Proof.
  induction ts as [|t ts IH]; intros st st'; [reflexivity|].
  destruct ts as [|t2 ts].
  - simpl. split.
    + intros M. exists st'. auto.
    + intros (mid & M & ->). exact M.
  - change (seq_of (t :: t2 :: ts)) with (RSeq t (seq_of (t2 :: ts))).
    simpl Match. simpl MatchList at 1. split.
    + intros (mid & M1 & M2). exists mid. split; auto. apply IH; auto.
    + intros (mid & M1 & M2). exists mid. split; auto. apply IH; auto.
Qed.

Lemma MatchList_app ic a b :
  forall st st',
    MatchList ic (a ++ b) st st'
    <-> exists mid, MatchList ic a st mid /\ MatchList ic b mid st'.
Proof.
  induction a as [|t a IH]; intros st st'; simpl.
  - split.
    + intros M. exists st. auto.
    + intros (mid & -> & M). exact M.
  - split.
    + intros (m1 & M1 & M2). apply IH in M2. destruct M2 as (m2 & M2 & M3).
      exists m2. split; auto. exists m1. auto.
    + intros (m2 & (m1 & M1 & M2) & M3). exists m1. split; auto.
      apply IH. exists m2. auto.
Qed.

Lemma recognizes_ext ts (L L' : jsstring -> Prop) :
  recognizes ts L -> (forall u, L u <-> L' u) -> recognizes ts L'.
Proof.
  intros H E st st'. rewrite (H st st'). split; intros (u & C & Lu); exists u;
    (split; [exact C | apply E; exact Lu]).
Qed.

Lemma recognizes_app ts1 ts2 (L1 L2 : jsstring -> Prop) :
  recognizes ts1 L1 -> recognizes ts2 L2 ->
  recognizes (ts1 ++ ts2) (fun u => exists u1 u2, u = u1 ++ u2 /\ L1 u1 /\ L2 u2).
Proof.
  intros H1 H2 st st'. rewrite MatchList_app. split.
  - intros (mid & M1 & M2). apply H1 in M1. apply H2 in M2.
    destruct M1 as (u1 & C1 & Lu1). destruct M2 as (u2 & C2 & Lu2).
    exists (u1 ++ u2). split; [eapply consumes_app; eauto|].
    exists u1, u2. auto.
  - intros (u & C & u1 & u2 & -> & Lu1 & Lu2).
    apply consumes_split in C. destruct C as (mid & C1 & C2).
    exists mid. split; [apply H1 | apply H2]; eauto.
Qed.

Lemma recognizes_atom a :
  recognizes [RAtom a] (fun u => exists x, u = [x] /\ atom_matches true a x = true).
Proof.
  intros st st'. simpl. split.
  - intros (mid & (x & C & Hx) & ->). exists [x]. eauto.
  - intros (u & C & x & -> & Hx). exists st'. eauto.
Qed.

Lemma recognizes_rep min max a :
  recognizes [RRep min max a]
    (fun u => forallb (atom_matches true a) u = true
              /\ min <= List.length u /\ within_max (List.length u) max).
Proof.
  intros st st'. simpl. split.
  - intros (mid & (u & C & H) & ->). exists u. auto.
  - intros (u & C & H). exists st'. eauto.
Qed.

Lemma recognizes_chars (l : list ascii) :
  recognizes (map chr l)
    (fun u => map canonicalize u = map canonicalize (map N_of_ascii l)).
Proof.
  induction l as [|c l IH].
  - intros st st'. simpl. split.
    + intros ->. exists []. split; [apply consumes_nil | reflexivity].
    + intros (u & C & E). destruct u; [|discriminate].
      apply consumes_nil_inv in C. exact C.
  - change (map chr (c :: l)) with ([chr c] ++ map chr l).
    eapply recognizes_ext.
    + apply recognizes_app; [apply recognizes_atom | exact IH].
    + intros u. unfold chr. cbn [map]. split.
      * intros (u1 & u2 & -> & (x & -> & Hx) & E).
        rewrite char_matches in Hx. apply N.eqb_eq in Hx.
        cbn [app map]. rewrite Hx, E. reflexivity.
      * intros E. destruct u as [|x u]; [discriminate|].
        cbn [map] in E. injection E as Ex E.
        exists [x], u. repeat split; auto.
        exists x. split; auto. rewrite char_matches. apply N.eqb_eq. exact Ex.
Qed.

Lemma recognizes_lit s : recognizes (lit s) (fun u => ci_eq u s).
Proof. apply recognizes_chars. Qed.

Lemma js_app s t : js (s ++ t) = js s ++ js t.
Proof.
  unfold js. rewrite <- map_app. f_equal.
  induction s as [|c s IH]; simpl; [reflexivity | rewrite IH; reflexivity].
Qed.

Lemma ci_eq_app p q s t : ci_eq p s -> ci_eq q t -> ci_eq (p ++ q) (s ++ t).
Proof.
  unfold ci_eq. intros Hp Hq. rewrite js_app, !map_app, Hp, Hq. reflexivity.
Qed.

Lemma ci_eq_app_inv p s t :
  ci_eq p (s ++ t) -> exists p1 p2, p = p1 ++ p2 /\ ci_eq p1 s /\ ci_eq p2 t.
Proof.
  unfold ci_eq. rewrite js_app, map_app. intros H.
  apply map_eq_app in H. destruct H as (p1 & p2 & -> & H1 & H2). eauto.
Qed.

Lemma ci_eq_length p s : ci_eq p s -> List.length p = String.length s.
Proof.
  unfold ci_eq, js. intros H. apply (f_equal (@List.length _)) in H.
  rewrite !length_map in H. rewrite H. clear.
  induction s; simpl; auto.
Qed.

(** ** The parts of the URL patterns *)

Lemma forallb_eq (A : Type) (f g : A -> bool) l :
  (forall x, f x = g x) -> forallb f l = forallb g l.
Proof. intros E. induction l; simpl; [reflexivity | rewrite E, IHl; reflexivity]. Qed.

Lemma forallb_eq_true (A : Type) (f g : A -> bool) l :
  (forall x, f x = g x) -> forallb g l = true -> forallb f l = true.
Proof. intros E H. rewrite (forallb_eq f g l E). exact H. Qed.

Lemma firstn_app_length (A : Type) (u r : list A) :
  firstn (List.length u) (u ++ r) = u.
Proof. induction u; simpl; [destruct r; reflexivity | rewrite IHu; reflexivity]. Qed.

Lemma canonicalize_fixed x c :
  canonicalize x = c -> (c < 65 \/ 90 < c)%N -> x = c.
Proof. destruct (canonicalize_cases x) as [[H ->] | [H ->]]; lia. Qed.

(** A literal with one optional character in it. *)
Lemma recognizes_optional (a b : string) (c : ascii) :
  recognizes (lit a ++ RRep 0 (Some 1) (AChar (N_of_ascii c)) :: lit b)
    (fun u => ci_eq u (a ++ b) \/ ci_eq u (a ++ String c b)).
Proof.
  change (RRep 0 (Some 1) (AChar (N_of_ascii c)) :: lit b)
    with ([RRep 0 (Some 1) (AChar (N_of_ascii c))] ++ lit b).
  eapply recognizes_ext.
  - apply recognizes_app; [apply recognizes_lit|].
    apply recognizes_app; [apply recognizes_rep | apply recognizes_lit].
  - intros u. split.
    + intros (u1 & u2 & -> & H1 & u3 & u4 & -> & (Hall & _ & Hmax) & H4).
      destruct u3 as [|x [|y u3]]; simpl in Hmax; [| |lia].
      * left. apply ci_eq_app; auto.
      * right. apply ci_eq_app; auto.
        change (String c b) with (String c EmptyString ++ b)%string.
        apply (ci_eq_app (p := [x])); auto.
        simpl in Hall. rewrite andb_true_r in Hall. apply N.eqb_eq in Hall.
        unfold ci_eq. simpl. rewrite Hall. reflexivity.
    + intros [H | H].
      * apply ci_eq_app_inv in H. destruct H as (p1 & p2 & -> & H1 & H2).
        exists p1, p2. split; [reflexivity|]. split; [exact H1|].
        exists [], p2. simpl. repeat split; auto.
      * apply ci_eq_app_inv in H. destruct H as (p1 & p2 & -> & H1 & H2).
        change (String c b) with (String c EmptyString ++ b)%string in H2.
        apply ci_eq_app_inv in H2. destruct H2 as (p3 & p4 & -> & H3 & H4).
        exists p1, (p3 ++ p4). split; [reflexivity|]. split; [exact H1|].
        exists p3, p4. split; [reflexivity|]. split; [|exact H4].
        pose proof (ci_eq_length H3) as Len. simpl in Len.
        destruct p3 as [|x [|y p3]]; try discriminate.
        unfold ci_eq in H3. simpl in H3. injection H3 as H3.
        simpl. rewrite andb_true_r. split; [apply N.eqb_eq; exact H3 | lia].
Qed.

Lemma recognizes_http_scheme : recognizes http_scheme scheme.
Proof. exact (recognizes_optional "http" "://" "s"). Qed.

Lemma www_guard_Match st mid :
  Match true www_guard st mid
  <-> (exists w, consumes st w mid /\ ci_eq w "www.")
      \/ (mid = st /\ ~ ci_eq (firstn 3 (ms_rest st)) "www").
Proof.
  unfold www_guard. cbn [Match].
  rewrite (Match_seq_of true (lit "www.")), (recognizes_lit "www." st mid).
  assert (E : (exists m, Match true (seq_of (lit "www")) st m)
              <-> ci_eq (firstn 3 (ms_rest st)) "www").
  { split.
    - intros (m & M). apply Match_seq_of, recognizes_lit in M.
      destruct M as (u & (R & _) & Hu). rewrite R.
      pose proof (ci_eq_length Hu) as Len. simpl in Len.
      rewrite <- Len, firstn_app_length. exact Hu.
    - intros H.
      exists (MState (ms_pos st + List.length (firstn 3 (ms_rest st)))
                (skipn 3 (ms_rest st)) (ms_caps st)).
      apply Match_seq_of, recognizes_lit.
      exists (firstn 3 (ms_rest st)). split; auto.
      unfold consumes; cbn [ms_rest ms_pos ms_caps].
      rewrite firstn_skipn. auto. }
  rewrite E. tauto.
Qed.

Lemma recognizes_long_label : recognizes long_label long_lang.
Proof.
  unfold long_label.
  change [RAtom alnum; RRep 1 None alnum_hyphen; RAtom alnum]
    with ([RAtom alnum] ++ [RRep 1 None alnum_hyphen] ++ [RAtom alnum]).
  eapply recognizes_ext.
  - apply recognizes_app; [apply recognizes_atom|].
    apply recognizes_app; [apply recognizes_rep | apply recognizes_atom].
  - intros u. unfold long_lang. split.
    + intros (u1 & u2 & -> & (a & -> & Ha) & m & u4 & -> & (Hm & Len & _)
              & b & -> & Hb).
      rewrite alnum_matches in Ha, Hb.
      rewrite (@forallb_eq _ _ _ m alnum_hyphen_matches) in Hm.
      exists a, m, b. auto.
    + intros (a & m & b & -> & Ha & Hm & Len & Hb).
      exists [a], (m ++ [b]). repeat split; auto.
      * exists a. rewrite alnum_matches. auto.
      * exists m, [b]. repeat split; auto.
        -- rewrite (@forallb_eq _ _ _ m alnum_hyphen_matches). exact Hm.
        -- exists b. rewrite alnum_matches. auto.
Qed.

Lemma recognizes_short_label : recognizes short_label short_lang.
Proof.
  unfold short_label. eapply recognizes_ext; [apply recognizes_rep|].
  intros u. unfold short_lang, within_max.
  rewrite (@forallb_eq _ _ _ u alnum_matches). tauto.
Qed.

Lemma recognizes_url_tail :
  recognizes url_tail (fun u => exists t, u = 46%N :: t /\ is_tail t = true).
Proof.
  unfold url_tail.
  change [chr "."; RRep 2 None non_space]
    with ([chr "."] ++ [RRep 2 None non_space]).
  eapply recognizes_ext.
  - apply recognizes_app; [apply recognizes_atom | apply recognizes_rep].
  - intros u. unfold is_tail. split.
    + intros (u1 & u2 & -> & (x & -> & Hx) & Hall & Len & _).
      exists u2. unfold chr in Hx. rewrite char_matches in Hx.
      apply N.eqb_eq in Hx. apply canonicalize_fixed in Hx; [|left; reflexivity].
      rewrite (@forallb_eq _ _ _ u2 non_space_matches) in Hall.
      rewrite Hx, Hall, andb_true_r. split; [reflexivity|].
      apply Nat.leb_le. exact Len.
    + intros (t & -> & Ht). apply andb_prop in Ht. destruct Ht as [Len Hall].
      exists [46%N], t. split; [reflexivity|]. split.
      * exists 46%N. split; reflexivity.
      * split; [exact (forallb_eq_true _ _ _ non_space_matches Hall)|].
        split; [|exact I].
        apply Nat.leb_le. exact Len.
Qed.

Lemma recognizes_label_tail lbl lab :
  recognizes lbl lab -> recognizes (lbl ++ url_tail) (label_tail_lang lab).
Proof.
  intros H. eapply recognizes_ext.
  - apply recognizes_app; [exact H | apply recognizes_url_tail].
  - intros u. unfold label_tail_lang. split.
    + intros (l & u2 & -> & Hl & t & -> & Ht). eauto.
    + intros (l & t & -> & Hl & Ht). exists l, (46%N :: t). eauto.
Qed.

(** ** What [url_body] reads *)

Lemma is_alnum_label_char c : is_alnum c = true -> is_label_char c = true.
Proof. unfold is_label_char. intros ->. reflexivity. Qed.

Lemma is_label_split l : is_label l = true <-> long_lang l \/ short_lang l.
Proof.
  unfold is_label, long_lang, short_lang. rewrite !andb_true_iff. split.
  - intros [[Hall Hhd] Hlast].
    assert (N : l <> []) by (intros ->; discriminate).
    destruct (exists_last N) as (l0 & b & ->). clear N.
    rewrite last_last in Hlast.
    rewrite forallb_app in Hall. apply andb_prop in Hall. destruct Hall as [Hall _].
    destruct l0 as [|a [|c m]].
    + right. simpl. rewrite Hlast. split; [reflexivity | lia].
    + right. simpl in *. rewrite Hhd, Hlast. split; [reflexivity | lia].
    + left. exists a, (c :: m), b. simpl in Hhd.
      split; [reflexivity|]. split; [exact Hhd|]. split; [|split; [simpl; lia | exact Hlast]].
      change (is_label_char a && forallb is_label_char (c :: m) = true) in Hall.
      apply andb_prop in Hall. apply Hall.
  - intros [(a & m & b & -> & Ha & Hm & Len & Hb) | [Hall Len]].
    + change (a :: m ++ [b]) with ((a :: m) ++ [b]). rewrite last_last.
      rewrite forallb_app. cbn [forallb hd app].
      rewrite (is_alnum_label_char _ Ha), (is_alnum_label_char _ Hb), Hm, Ha, Hb.
      auto.
    + assert (N : l <> []) by (intros ->; simpl in Len; lia).
      assert (Hchars : forallb is_label_char l = true).
      { clear - Hall. induction l as [|c l IH]; simpl in *; auto.
        apply andb_prop in Hall. destruct Hall as [Hc Hall].
        rewrite (is_alnum_label_char _ Hc), IH; auto. }
      assert (Hhd : is_alnum (hd 45%N l) = true).
      { destruct l; [contradiction|]. simpl in *. apply andb_prop in Hall. apply Hall. }
      destruct (exists_last N) as (l0 & b & ->).
      rewrite last_last.
      rewrite forallb_app in Hall. apply andb_prop in Hall. destruct Hall as [_ Hb].
      simpl in Hb. rewrite andb_true_r in Hb.
      auto.
Qed.

(** The lookahead [(?!www)] only sees the label: the dot after it is no [w]. *)
Lemma www_ahead l t r :
  ci_eq (firstn 3 ((l ++ 46%N :: t) ++ r)) "www" <-> ci_eq (firstn 3 l) "www".
Proof.
  unfold ci_eq.
  destruct l as [|a [|b [|c l]]]; simpl; split; intros H; try discriminate; auto.
Qed.

Lemma scheme_alt lbl lab :
  recognizes lbl lab ->
  forall st st',
    MatchList true (http_scheme ++ www_guard :: lbl ++ url_tail) st st'
    <-> exists p l t,
          consumes st (p ++ l ++ 46%N :: t) st'
          /\ lab l /\ is_tail t = true
          /\ (scheme_www p \/ (scheme p /\ ~ ci_eq (firstn 3 l) "www")).
Proof.
  intros Hl st st'. rewrite MatchList_app. cbn [MatchList]. split.
  - intros (m1 & M1 & m2 & G & M2).
    apply recognizes_http_scheme in M1. destruct M1 as (u1 & C1 & S1).
    apply (recognizes_label_tail Hl) in M2.
    destruct M2 as (v & C2 & l & t & -> & Ll & Ht).
    apply www_guard_Match in G. destruct G as [(w & Cw & Hw) | [-> N]].
    + exists (u1 ++ w), l, t. split; [|split; [exact Ll | split; [exact Ht|]]].
      * eapply consumes_app; [eapply consumes_app|]; eauto.
      * left. destruct S1 as [S1 | S1]; [left | right].
        -- change "http://www."%string with ("http://" ++ "www.")%string.
           apply ci_eq_app; auto.
        -- change "https://www."%string with ("https://" ++ "www.")%string.
           apply ci_eq_app; auto.
    + exists u1, l, t. split; [|split; [exact Ll | split; [exact Ht|]]].
      * eapply consumes_app; eauto.
      * right. split; [exact S1|]. destruct C2 as (R2 & _).
        rewrite R2, www_ahead in N. exact N.
  - intros (p & l & t & C & Ll & Ht & [S | [S N]]).
    + assert (exists u1 w, p = u1 ++ w /\ scheme u1 /\ ci_eq w "www.")
        as (u1 & w & -> & S1 & Hw).
      { destruct S as [S | S].
        - change "http://www."%string with ("http://" ++ "www.")%string in S.
          apply ci_eq_app_inv in S. destruct S as (u1 & w & -> & S1 & Hw).
          exists u1, w. unfold scheme. auto.
        - change "https://www."%string with ("https://" ++ "www.")%string in S.
          apply ci_eq_app_inv in S. destruct S as (u1 & w & -> & S1 & Hw).
          exists u1, w. unfold scheme. auto. }
      rewrite <- app_assoc in C.
      apply consumes_split in C. destruct C as (m1 & C1 & C).
      apply consumes_split in C. destruct C as (m2 & Cw & C2).
      exists m1. split; [apply recognizes_http_scheme; eauto|].
      exists m2. split; [apply www_guard_Match; eauto|].
      apply (recognizes_label_tail Hl). exists (l ++ 46%N :: t).
      split; [exact C2|]. exists l, t. auto.
    + apply consumes_split in C. destruct C as (m1 & C1 & C2).
      exists m1. split; [apply recognizes_http_scheme; eauto|].
      exists m1. split.
      * apply www_guard_Match. right. split; [reflexivity|].
        destruct C2 as (R2 & _). rewrite R2, www_ahead. exact N.
      * apply (recognizes_label_tail Hl). exists (l ++ 46%N :: t).
        split; [exact C2|]. exists l, t. auto.
Qed.

Lemma www_alt lbl lab :
  recognizes lbl lab ->
  forall st st',
    MatchList true (lit "www." ++ lbl ++ url_tail) st st'
    <-> exists p l t,
          consumes st (p ++ l ++ 46%N :: t) st'
          /\ lab l /\ is_tail t = true /\ ci_eq p "www.".
Proof.
  intros Hl st st'.
  rewrite (recognizes_app (recognizes_lit "www.") (recognizes_label_tail Hl) st st').
  split.
  - intros (u & C & p & v & -> & Hp & l & t & -> & Ll & Ht). exists p, l, t. auto.
  - intros (p & l & t & C & Ll & Ht & Hp). exists (p ++ l ++ 46%N :: t).
    split; [exact C|]. exists p, (l ++ 46%N :: t). repeat split; auto.
    exists l, t. auto.
Qed.

Theorem url_body_Match st st' :
  Match true url_body st st' <-> exists u, consumes st u st' /\ bare_url u.
Proof.
  unfold url_body. cbn [Match]. rewrite !Match_seq_of.
  rewrite (scheme_alt recognizes_long_label), (scheme_alt recognizes_short_label),
    (www_alt recognizes_long_label), (www_alt recognizes_short_label).
  unfold bare_url, url_prefix. split.
  - intros [H | [H | [H | H]]].
    + destruct H as (p & l & t & C & Ll & Ht & Hp).
      exists (p ++ l ++ 46%N :: t). split; [exact C|]. exists p, l, t.
      repeat split; auto; [|apply is_label_split; auto].
      unfold scheme_www, scheme in Hp. tauto.
    + destruct H as (p & l & t & C & Ll & Ht & Hp).
      exists (p ++ l ++ 46%N :: t). split; [exact C|]. exists p, l, t.
      repeat split; auto. apply is_label_split; auto.
    + destruct H as (p & l & t & C & Ll & Ht & Hp).
      exists (p ++ l ++ 46%N :: t). split; [exact C|]. exists p, l, t.
      repeat split; auto; [|apply is_label_split; auto].
      unfold scheme_www, scheme in Hp. tauto.
    + destruct H as (p & l & t & C & Ll & Ht & Hp).
      exists (p ++ l ++ 46%N :: t). split; [exact C|]. exists p, l, t.
      repeat split; auto. apply is_label_split; auto.
  - intros (u & C & p & l & t & -> & Hp & Hl & Ht).
    apply is_label_split in Hl.
    assert (S : ci_eq p "www." \/ (scheme_www p \/ (scheme p /\ ~ ci_eq (firstn 3 l) "www"))).
    { unfold scheme_www, scheme. tauto. }
    destruct Hl as [Hl | Hl]; destruct S as [S | S].
    + right; left. exists p, l, t. auto.
    + left. exists p, l, t. auto.
    + right; right; right. exists p, l, t. auto.
    + right; right; left. exists p, l, t. auto.
Qed.

(** ** Terms that capture *)

Lemma MatchList_single ic r st st' : MatchList ic [r] st st' <-> Match ic r st st'.
Proof.
  simpl. split.
  - intros (mid & M & ->). exact M.
  - intros M. exists st'. auto.
Qed.

Lemma steps_app st u cs mid v ds st' :
  steps st u cs mid -> steps mid v ds st' -> steps st (u ++ v) (ds ++ cs) st'.
Proof.
  intros (R1 & P1 & C1) (R2 & P2 & C2). unfold steps.
  rewrite R1, R2, P2, P1, C2, C1, length_app, <- !app_assoc.
  repeat split; lia.
Qed.

Lemma steps_split st u cs v ds st' :
  steps st (u ++ v) (ds ++ cs) st' ->
  exists mid, steps st u cs mid /\ steps mid v ds st'.
Proof.
  intros (R & P & C).
  exists (MState (ms_pos st + List.length u) (v ++ ms_rest st') (cs ++ ms_caps st)).
  unfold steps; simpl. rewrite R, P, C, length_app, <- !app_assoc.
  repeat split; lia.
Qed.

Lemma recognizes_caps_ext ts (L L' : jsstring -> list (nat * jsstring) -> Prop) :
  recognizes_caps ts L -> (forall u cs, L u cs <-> L' u cs) -> recognizes_caps ts L'.
Proof.
  intros H E st st'. rewrite (H st st').
  split; intros (u & cs & C & Lu); exists u, cs;
    (split; [exact C | apply E; exact Lu]).
Qed.

Lemma recognizes_caps_app ts1 ts2
    (L1 L2 : jsstring -> list (nat * jsstring) -> Prop) :
  recognizes_caps ts1 L1 -> recognizes_caps ts2 L2 ->
  recognizes_caps (ts1 ++ ts2)
    (fun u cs => exists u1 c1 u2 c2,
       u = u1 ++ u2 /\ cs = c2 ++ c1 /\ L1 u1 c1 /\ L2 u2 c2).
Proof.
  intros H1 H2 st st'. rewrite MatchList_app. split.
  - intros (mid & M1 & M2). apply H1 in M1. apply H2 in M2.
    destruct M1 as (u1 & c1 & C1 & Lu1). destruct M2 as (u2 & c2 & C2 & Lu2).
    exists (u1 ++ u2), (c2 ++ c1). split; [eapply steps_app; eauto|].
    exists u1, c1, u2, c2. auto.
  - intros (u & cs & C & u1 & c1 & u2 & c2 & -> & -> & Lu1 & Lu2).
    apply steps_split in C. destruct C as (mid & C1 & C2).
    exists mid. split; [apply H1 | apply H2]; eauto.
Qed.

Lemma recognizes_caps_plain ts L :
  recognizes ts L -> recognizes_caps ts (fun u cs => L u /\ cs = []).
Proof.
  intros H st st'. rewrite (H st st'). split.
  - intros (u & C & Lu). exists u, []. auto.
  - intros (u & cs & C & Lu & ->). exists u. auto.
Qed.

Lemma recognizes_caps_group i r (L : jsstring -> Prop) :
  (forall st st', Match true r st st' <-> exists u, consumes st u st' /\ L u) ->
  recognizes_caps [RGroup i r] (fun u cs => L u /\ cs = [(i, u)]).
Proof.
  intros H st st'. rewrite MatchList_single. cbn [Match]. split.
  - intros (mid & M & ->). apply H in M. destruct M as (u & (R & P & C) & Lu).
    exists u, [(i, u)]. split; [|auto].
    unfold steps; cbn [ms_rest ms_pos ms_caps app].
    rewrite P, R, C. replace (ms_pos st + List.length u - ms_pos st)
      with (List.length u) by lia.
    rewrite firstn_app_length. auto.
  - intros (u & cs & (R & P & C) & Lu & ->).
    exists (MState (ms_pos st') (ms_rest st') (ms_caps st)). split.
    + apply H. exists u. split; [|exact Lu]. unfold consumes; simpl. auto.
    + cbn [ms_rest ms_pos ms_caps]. rewrite R.
      replace (ms_pos st' - ms_pos st) with (List.length u) by lia.
      rewrite firstn_app_length. destruct st'; simpl in *. rewrite C. reflexivity.
Qed.

(** A pattern character that is no letter reads itself only. *)
Lemma recognizes_symbol (a : ascii) :
  (N_of_ascii a < 65 \/ 122 < N_of_ascii a
   \/ 90 < N_of_ascii a < 97)%N ->
  recognizes [chr a] (fun u => u = [N_of_ascii a]).
Proof.
  intros Ha. eapply recognizes_ext; [apply recognizes_atom|].
  intros u. unfold chr. split.
  - intros (x & -> & Hx). rewrite char_matches in Hx. apply N.eqb_eq in Hx.
    f_equal.
    destruct (canonicalize_cases x) as [[H E] | [H E]];
      destruct (canonicalize_cases (N_of_ascii a)) as [[H' E'] | [H' E']];
      rewrite E, E' in Hx; lia.
  - intros ->. exists (N_of_ascii a). split; [reflexivity|].
    rewrite char_matches. apply N.eqb_eq. reflexivity.
Qed.


(** ** [exec] and [test] *)

Lemma search_sound re rest :
  forall pos start from st,
    search re pos rest = Some (start, from, st) ->
    exists skipped,
      rest = skipped ++ from /\ start = pos + List.length skipped
      /\ run (re_ignoreCase re) (re_pattern re) (MState start from []) Some = Some st.
Proof.
  induction rest as [|x rest IH]; intros pos start from st H; simpl in H.
  - destruct (run (re_ignoreCase re) (re_pattern re) (MState pos [] []) Some) eqn:R;
      [|discriminate].
    injection H as <- <- <-. exists []. simpl. rewrite Nat.add_0_r. auto.
  - destruct (run (re_ignoreCase re) (re_pattern re) (MState pos (x :: rest) []) Some)
      eqn:R.
    + injection H as <- <- <-. exists []. simpl. rewrite Nat.add_0_r. auto.
    + apply IH in H. destruct H as (sk & -> & -> & H).
      exists (x :: sk). simpl. repeat split; auto; lia.
Qed.

Lemma search_complete re skipped :
  forall pos from,
    run (re_ignoreCase re) (re_pattern re)
      (MState (pos + List.length skipped) from []) Some <> None ->
    search re pos (skipped ++ from) <> None.
Proof.
  induction skipped as [|x sk IH]; intros pos from H.
  - simpl in *. rewrite Nat.add_0_r in H.
    destruct from; simpl;
      destruct (run (re_ignoreCase re) (re_pattern re) _ Some);
      try discriminate; contradiction.
  - simpl.
    destruct (run (re_ignoreCase re) (re_pattern re) (MState pos (x :: sk ++ from) []) Some);
      [discriminate|].
    apply IH. simpl in H. replace (S pos + List.length sk)
      with (pos + S (List.length sk)) by lia. exact H.
Qed.

(** A successful [exec]: where the match starts, and how it went. *)
Lemma exec_sound re s arr :
  exec re s = Some arr ->
  exists pre from st,
    s = pre ++ from
    /\ Match (re_ignoreCase re) (re_pattern re)
         (MState (List.length pre) from []) st
    /\ arr = match_array (re_pattern re) (List.length pre) from st.
Proof.
  unfold exec. destruct (search re 0 s) as [[[start from] st]|] eqn:E; [|discriminate].
  intros H. injection H as <-.
  apply search_sound in E. destruct E as (pre & -> & -> & R).
  apply run_sound in R. destruct R as (st' & M & Hst). injection Hst as ->.
  exists pre, from, st. auto.
Qed.

Lemma exec_complete re pre from st :
  Match (re_ignoreCase re) (re_pattern re) (MState (List.length pre) from []) st ->
  exec re (pre ++ from) <> None.
Proof.
  intros M. unfold exec.
  assert (N : search re 0 (pre ++ from) <> None).
  { apply search_complete. simpl. eapply run_complete; eauto. discriminate. }
  destruct (search re 0 (pre ++ from)) as [[[start fr] st']|]; [discriminate | contradiction].
Qed.

Theorem test_spec re s :
  test re s = true
  <-> exists pre from st,
        s = pre ++ from
        /\ Match (re_ignoreCase re) (re_pattern re)
             (MState (List.length pre) from []) st.
Proof.
  unfold test. split.
  - destruct (exec re s) as [arr|] eqn:E; [|discriminate]. intros _.
    apply exec_sound in E. destruct E as (pre & from & st & -> & M & _). eauto.
  - intros (pre & from & st & -> & M).
    apply exec_complete in M. destruct (exec re (pre ++ from)); [reflexivity | contradiction].
Qed.

(** A pattern that begins with [^] and ends with [$] reads the whole input. *)
Lemma anchored_Match ts (pre from : jsstring) st :
  Match true (seq_of (RBol :: ts ++ [REol])) (MState (List.length pre) from []) st
  <-> pre = [] /\ ms_rest st = []
      /\ MatchList true ts (MState 0 from []) st.
Proof.
  rewrite Match_seq_of. cbn [MatchList Match]. split.
  - intros (m1 & (-> & P) & M). simpl in P.
    apply length_zero_iff_nil in P. subst pre.
    apply MatchList_app in M. destruct M as (m2 & M & m3 & (-> & R) & ->).
    simpl in M. auto.
  - intros (-> & R & M). exists (MState 0 from []). split; [simpl; auto|].
    apply MatchList_app. exists st. split; [exact M|].
    exists st. simpl. auto.
Qed.

(** ** The three classifiers *)

Theorem url_regex_spec s : test (regex DEFAULT_SETTINGS) s = true <-> bare_url s.
Proof.
  rewrite test_spec. cbn [regex DEFAULT_SETTINGS re_ignoreCase re_pattern].
  change [RBol; RGroup 1 url_body; REol] with (RBol :: [RGroup 1 url_body] ++ [REol]).
  split.
  - intros (pre & from & st & -> & M).
    apply anchored_Match in M. destruct M as (-> & R & M).
    apply (@recognizes_caps_group 1 _ _ url_body_Match) in M.
    destruct M as (u & cs & (Ru & _) & Hu & _).
    simpl in Ru. rewrite R, app_nil_r in Ru. simpl. rewrite Ru. exact Hu.
  - intros H. exists [], s, (MState (List.length s) [] [(1, s)]). split; [reflexivity|].
    apply anchored_Match. split; [reflexivity|]. split; [reflexivity|].
    apply (@recognizes_caps_group 1 _ _ url_body_Match).
    exists s, [(1, s)]. split; [|auto].
    unfold steps; simpl. rewrite app_nil_r. auto.
Qed.

Lemma rep_Match min max a st st' :
  Match true (RRep min max a) st st'
  <-> exists u, consumes st u st'
        /\ (forallb (atom_matches true a) u = true
            /\ min <= List.length u /\ within_max (List.length u) max).
Proof. rewrite <- MatchList_single. apply recognizes_rep. Qed.

Lemma recognizes_link_terms : recognizes_caps link_terms link_lang.
Proof.
  unfold link_terms.
  change [chr "["; RGroup 1 (RRep 0 None non_bracket); chr "]"; chr "(";
          RGroup 2 url_body; chr ")"]
    with ([chr "["] ++ [RGroup 1 (RRep 0 None non_bracket)] ++ [chr "]"]
          ++ [chr "("] ++ [RGroup 2 url_body] ++ [chr ")"]).
  eapply recognizes_caps_ext.
  - apply recognizes_caps_app;
      [apply recognizes_caps_plain, (@recognizes_symbol "["); right; right; split; reflexivity|].
    apply recognizes_caps_app;
      [apply (@recognizes_caps_group 1 _ _ (@rep_Match 0 None non_bracket))|].
    apply recognizes_caps_app;
      [apply recognizes_caps_plain, (@recognizes_symbol "]"); right; right; split; reflexivity|].
    apply recognizes_caps_app;
      [apply recognizes_caps_plain, (@recognizes_symbol "("); left; reflexivity|].
    apply recognizes_caps_app;
      [apply (@recognizes_caps_group 2 _ _ url_body_Match)|].
    apply recognizes_caps_plain, (@recognizes_symbol ")"); left; reflexivity.
  - intros u cs. unfold link_lang. split.
    + intros (u1 & c1 & r1 & d1 & -> & -> & [-> ->] &
              u2 & c2 & r2 & d2 & -> & -> & [(Hl & _) ->] &
              u3 & c3 & r3 & d3 & -> & -> & [-> ->] &
              u4 & c4 & r4 & d4 & -> & -> & [-> ->] &
              u5 & c5 & u6 & c6 & -> & -> & [Hu ->] & [-> ->]).
      exists u2, u5. split; [reflexivity|]. split; [reflexivity|].
      split; [|exact Hu].
      refine (forallb_eq_true _ _ _ _ Hl). intros x. symmetry. apply non_bracket_matches.
    + intros (label & url & -> & -> & Hl & Hu).
      exists [91%N], [], (label ++ 93%N :: 40%N :: url ++ [41%N]), [(2, url); (1, label)].
      split; [reflexivity|]. split; [reflexivity|]. split; [auto|].
      exists label, [(1, label)], (93%N :: 40%N :: url ++ [41%N]), [(2, url)].
      split; [reflexivity|]. split; [reflexivity|]. split.
      { split; [|reflexivity]. split; [|split; [lia | exact I]].
        exact (forallb_eq_true _ _ _ non_bracket_matches Hl). }
      exists [93%N], [], (40%N :: url ++ [41%N]), [(2, url)].
      split; [reflexivity|]. split; [reflexivity|]. split; [auto|].
      exists [40%N], [], (url ++ [41%N]), [(2, url)].
      split; [reflexivity|]. split; [reflexivity|]. split; [auto|].
      exists url, [(2, url)], [41%N], [].
      split; [reflexivity|]. split; [reflexivity|]. auto.
Qed.

(** A successful [exec] of [linkRegex]: the input is a link, and the array
    holds the input, the label and the URL. *)
Lemma link_exec_sound s arr :
  exec (Settings.linkRegex DEFAULT_SETTINGS) s = Some arr ->
  exists label url,
    s = 91%N :: label ++ 93%N :: 40%N :: url ++ [41%N]
    /\ forallb (fun c => negb (is_bracket c)) label = true
    /\ bare_url url
    /\ arr = [JString s; JString label; JString url].
Proof.
  intros E. apply exec_sound in E. destruct E as (pre & from & st & -> & M & ->).
  cbn [Settings.linkRegex DEFAULT_SETTINGS re_ignoreCase re_pattern] in *.
  apply anchored_Match in M. destruct M as (-> & R & M).
  apply recognizes_link_terms in M.
  destruct M as (u & cs & (Ru & P & C) & label & url & -> & -> & Hl & Hu).
  simpl in Ru, C. cbn [ms_pos Nat.add] in P. rewrite R, app_nil_r in Ru.
  exists label, url. split; [exact Ru|]. split; [exact Hl|]. split; [exact Hu|].
  unfold match_array. rewrite C, P, Nat.sub_0_r, Ru, firstn_all. reflexivity.
Qed.

Lemma link_exec_complete s : linked_url s ->
  exec (Settings.linkRegex DEFAULT_SETTINGS) s <> None.
Proof.
  intros (label & url & -> & Hl & Hu).
  set (s := 91%N :: label ++ 93%N :: 40%N :: url ++ [41%N]).
  apply (@exec_complete (Settings.linkRegex DEFAULT_SETTINGS) [] s
           (MState (List.length s) [] [(2, url); (1, label)])).
  cbn [Settings.linkRegex DEFAULT_SETTINGS re_ignoreCase re_pattern].
  apply anchored_Match. split; [reflexivity|]. split; [reflexivity|].
  apply recognizes_link_terms.
  exists s, [(2, url); (1, label)]. split.
  - unfold steps; simpl. rewrite app_nil_r. auto.
  - exists label, url. auto.
Qed.

Theorem link_regex_spec s :
  test (Settings.linkRegex DEFAULT_SETTINGS) s = true <-> linked_url s.
Proof.
  unfold test. split.
  - destruct (exec (Settings.linkRegex DEFAULT_SETTINGS) s) as [arr|] eqn:E;
      [|discriminate].
    intros _. apply link_exec_sound in E.
    destruct E as (label & url & -> & Hl & Hu & _). exists label, url. auto.
  - intros H. apply link_exec_complete in H.
    destruct (exec (Settings.linkRegex DEFAULT_SETTINGS) s); [reflexivity | contradiction].
Qed.

(** A label without brackets ends at the first closing bracket. *)
Lemma label_unique (l1 l2 r1 r2 : jsstring) :
  forallb (fun c => negb (is_bracket c)) l1 = true ->
  forallb (fun c => negb (is_bracket c)) l2 = true ->
  l1 ++ 93%N :: r1 = l2 ++ 93%N :: r2 -> l1 = l2 /\ r1 = r2.
Proof.
  revert l2. induction l1 as [|a l1 IH]; intros [|b l2] H1 H2 E; simpl in *.
  - injection E as ->. auto.
  - injection E as <- _. discriminate.
  - injection E as -> _. discriminate.
  - injection E as -> E.
    apply andb_prop in H1. apply andb_prop in H2.
    destruct (IH l2) as [-> ->]; tauto.
Qed.

(** ** The image pattern *)

Lemma image_extension_Match st st' :
  Match true image_extension st st'
  <-> exists u, consumes st u st'
        /\ exists ext, In ext image_extensions /\ ci_eq u ext.
Proof.
  unfold image_extension. cbn [Match]. rewrite !Match_seq_of.
  rewrite (recognizes_lit "gif" st st'), (recognizes_lit "png" st st'),
    (recognizes_lit "webp" st st'), (recognizes_lit "bmp" st st'),
    (recognizes_lit "tga" st st'), (recognizes_lit "psd" st st'),
    (recognizes_lit "ai" st st').
  rewrite (recognizes_optional "jp" "g" "e" st st').
  rewrite (recognizes_optional "tif" "" "f" st st').
  unfold image_extensions. cbn [In append]. split.
  - intros [H | [H | [H | [H | [H | [H | [H | [H | H]]]]]]]];
      destruct H as (u & C & H); exists u; (split; [exact C|]);
      try (destruct H as [H | H]); eexists; (split; [|exact H]); tauto.
  - intros (u & C & ext & Hin & H).
    repeat (destruct Hin as [<- | Hin]); try contradiction.
    + left. eauto.
    + right; left. eauto.
    + right; left. eauto.
    + right; right; left. eauto.
    + right; right; left. eauto.
    + right; right; right; left. eauto.
    + right; right; right; right; left. eauto.
    + right; right; right; right; right; left. eauto.
    + right; right; right; right; right; right; left. eauto.
    + right; right; right; right; right; right; right; left. eauto.
    + right; right; right; right; right; right; right; right. eauto.
Qed.

Theorem image_regex_spec s :
  test (imageRegex DEFAULT_SETTINGS) s = true <-> ends_with_image_extension s.
Proof.
  rewrite test_spec. cbn [imageRegex DEFAULT_SETTINGS re_ignoreCase re_pattern].
  unfold ends_with_image_extension. split.
  - intros (pre & from & st & -> & M). apply Match_seq_of in M.
    change [chr "."; RGroup 1 image_extension; REol]
      with ([chr "."] ++ [RGroup 1 image_extension] ++ [REol]) in M.
    apply MatchList_app in M. destruct M as (m1 & M1 & M).
    apply MatchList_app in M. destruct M as (m2 & M2 & M3).
    apply (@recognizes_symbol ".") in M1; [|left; reflexivity].
    destruct M1 as (u1 & (R1 & _) & ->).
    apply (@recognizes_caps_group 1 _ _ image_extension_Match) in M2.
    destruct M2 as (u2 & cs & (R2 & _) & (ext & Hin & Hext) & _).
    apply MatchList_single in M3. destruct M3 as (-> & R3).
    simpl in R1. rewrite R1, R2, R3, app_nil_r.
    exists pre, u2, ext. auto.
  - intros (pre & suf & ext & -> & Hin & Hext).
    exists pre, (46%N :: suf),
      (MState (List.length pre + 1 + List.length suf) [] [(1, suf)]).
    split; [reflexivity|]. apply Match_seq_of.
    change [chr "."; RGroup 1 image_extension; REol]
      with ([chr "."] ++ [RGroup 1 image_extension] ++ [REol]).
    apply MatchList_app. exists (MState (List.length pre + 1) suf []). split.
    { apply (@recognizes_symbol "."); [left; reflexivity|].
      exists [46%N]. split; [|reflexivity]. unfold consumes; simpl. auto. }
    apply MatchList_app.
    exists (MState (List.length pre + 1 + List.length suf) [] [(1, suf)]). split.
    { apply (@recognizes_caps_group 1 _ _ image_extension_Match).
      exists suf, [(1, suf)]. split; [|eauto].
      unfold steps; simpl. rewrite app_nil_r. auto. }
    apply MatchList_single. simpl. auto.
Qed.

(** ** White space and [trim] *)

Lemma is_ws_spec c :
  is_ws c = true
  <-> ((9 <= c <= 13) \/ c = 32 \/ c = 160 \/ c = 5760 \/ (8192 <= c <= 8202)
       \/ c = 8232 \/ c = 8233 \/ c = 8239 \/ c = 8287 \/ c = 12288 \/ c = 65279)%N.
Proof.
  unfold is_ws. rewrite !orb_true_iff, !in_range_spec, !N.eqb_eq. tauto.
Qed.

Lemma is_ws_canonicalize x : is_ws (canonicalize x) = is_ws x.
Proof.
  apply eq_iff_eq_true. rewrite !is_ws_spec.
  destruct (canonicalize_cases x) as [[H ->] | [H ->]]; lia.
Qed.

Lemma label_char_not_ws c : is_label_char c = true -> is_ws c = false.
Proof.
  intros H. destruct (is_ws c) eqn:E; [|reflexivity]. exfalso.
  apply is_ws_spec in E. unfold is_label_char, is_alnum in H.
  rewrite !orb_true_iff, !in_range_spec, N.eqb_eq in H. lia.
Qed.

Lemma no_ws_app u v : no_ws (u ++ v) = no_ws u && no_ws v.
Proof. apply forallb_app. Qed.

Lemma no_ws_canonicalize u : no_ws (map canonicalize u) = no_ws u.
Proof.
  unfold no_ws. induction u as [|x u IH]; simpl; [reflexivity|].
  rewrite is_ws_canonicalize, IH. reflexivity.
Qed.

Lemma ci_eq_no_ws p s : ci_eq p s -> no_ws (js s) = true -> no_ws p = true.
Proof.
  unfold ci_eq. intros E H.
  rewrite <- no_ws_canonicalize, E, no_ws_canonicalize. exact H.
Qed.

Lemma bare_url_no_ws u : bare_url u -> no_ws u = true /\ u <> [].
Proof.
  intros (p & l & t & -> & Hp & Hl & Ht). split.
  - rewrite !no_ws_app. change (no_ws (46%N :: t)) with (no_ws t).
    assert (Pp : no_ws p = true).
    { destruct Hp as [H | [H | [H | [[H | H] _]]]];
        apply (ci_eq_no_ws H); reflexivity. }
    assert (Pl : no_ws l = true).
    { unfold is_label in Hl. rewrite !andb_true_iff in Hl. destruct Hl as [[Hl _] _].
      unfold no_ws. revert Hl. clear. induction l as [|c l IH]; simpl; auto.
      rewrite andb_true_iff. intros [Hc Hl].
      rewrite (label_char_not_ws _ Hc). simpl. auto. }
    unfold is_tail in Ht. apply andb_prop in Ht. destruct Ht as [_ Ht].
    unfold no_ws at 3. rewrite Pp, Pl, Ht. reflexivity.
  - intros E. apply (f_equal (@List.length _)) in E.
    rewrite !length_app in E. simpl in E. lia.
Qed.

Lemma trimStart_spec s :
  exists pre, s = pre ++ trimStart s /\ forallb is_ws pre = true.
Proof.
  induction s as [|c s (pre & E & H)]; simpl.
  - exists []. auto.
  - destruct (is_ws c) eqn:Ec.
    + exists (c :: pre). simpl. rewrite Ec, H, <- E. auto.
    + exists []. auto.
Qed.

Lemma forallb_rev (A : Type) (f : A -> bool) l : forallb f (rev l) = forallb f l.
Proof.
  induction l as [|x l IH]; simpl; [reflexivity|].
  rewrite forallb_app, IH. simpl. rewrite andb_true_r. apply andb_comm.
Qed.

Lemma trimEnd_spec s :
  exists post, s = trimEnd s ++ post /\ forallb is_ws post = true.
Proof.
  unfold trimEnd. destruct (trimStart_spec (rev s)) as (pre & E & H).
  exists (rev pre). split.
  - rewrite <- rev_app_distr, <- E, rev_involutive. reflexivity.
  - rewrite forallb_rev. exact H.
Qed.

Lemma trim_spec s :
  exists pre post,
    s = pre ++ trim s ++ post
    /\ forallb is_ws pre = true /\ forallb is_ws post = true.
Proof.
  unfold trim. destruct (trimStart_spec s) as (pre & E & H).
  destruct (trimEnd_spec (trimStart s)) as (post & E' & H').
  exists pre, post. rewrite <- E', <- E. auto.
Qed.

Lemma trimStart_no_ws u : no_ws u = true -> trimStart u = u.
Proof.
  destruct u as [|c u]; simpl; [reflexivity|].
  intros H. apply andb_prop in H. destruct H as [H _].
  destruct (is_ws c); [discriminate | reflexivity].
Qed.

Lemma trim_no_ws u : no_ws u = true -> trim u = u.
Proof.
  intros H. unfold trim, trimEnd. rewrite (trimStart_no_ws _ H).
  rewrite trimStart_no_ws; [apply rev_involutive|].
  unfold no_ws. rewrite forallb_rev. exact H.
Qed.

(** ** The line scan *)

Lemma run_maximal ic a r :
  ends_greedy a r ->
  forall st k res,
    final_cont k -> run ic r st k = Some res ->
    match ms_rest res with
    | x :: _ => atom_matches ic a x = false
    | [] => True
    end.
Proof.
  induction r as [ | a' | r1 IH1 r2 IH2 | r1 IH1 r2 IH2
                 | min max a' | i r1 IH1 | r1 IH1 | | ];
    simpl; intros G st k res Hk H; try contradiction.
  - apply run_sound in H. destruct H as (mid & _ & H). eapply IH2; eauto.
  - destruct G as [G1 G2]. destruct (run ic r1 st k) eqn:E.
    + injection H as ->. eapply IH1; eauto.
    + eapply IH2; eauto.
  - destruct max; [contradiction|]. subst a'.
    eapply rep_greedy_maximal; eauto.
  - eapply (IH1 G); [|exact H].
    intros st'. destruct (Hk (MState (ms_pos st') (ms_rest st')
      ((i, firstn (ms_pos st' - ms_pos st) (ms_rest st)) :: ms_caps st')))
      as (res' & E & R).
    exists res'. auto.
Qed.

Lemma url_body_ends_greedy : ends_greedy non_space url_body.
Proof. repeat split. Qed.

Lemma line_run_sound pos rest st :
  run true (RGroup 1 url_body) (MState pos rest []) Some = Some st ->
  exists u,
    bare_url u /\ rest = u ++ ms_rest st
    /\ ms_pos st = pos + List.length u /\ ws_or_end (ms_rest st).
Proof.
  intros H.
  assert (G : ws_or_end (ms_rest st)).
  { assert (F : final_cont Some) by (intros s; exists s; auto).
    pose proof (@run_maximal true non_space (RGroup 1 url_body)
                  url_body_ends_greedy _ _ _ F H) as Mx.
    unfold ws_or_end. destruct (ms_rest st) as [|x r]; [exact I|].
    rewrite non_space_matches in Mx. destruct (is_ws x); [reflexivity | discriminate]. }
  apply run_sound in H. destruct H as (st' & M & E). injection E as ->.
  apply MatchList_single, (@recognizes_caps_group 1 _ _ url_body_Match) in M.
  destruct M as (u & cs & (R & P & _) & Hu & _). simpl in R, P.
  exists u. auto.
Qed.

Lemma line_run_complete pos u rest' :
  bare_url u ->
  run true (RGroup 1 url_body) (MState pos (u ++ rest') []) Some <> None.
Proof.
  intros Hu.
  apply run_complete with (st' := MState (pos + List.length u) rest' [(1, u)]);
    [|discriminate].
  apply MatchList_single, (@recognizes_caps_group 1 _ _ url_body_Match).
  exists u, [(1, u)]. split; [|auto]. unfold steps; simpl. auto.
Qed.

Lemma no_ws_prefix_unique (u u' r r' : jsstring) :
  no_ws u = true -> no_ws u' = true -> ws_or_end r -> ws_or_end r' ->
  u ++ r = u' ++ r' -> u = u' /\ r = r'.
Proof.
  revert u'. induction u as [|x u IH]; intros [|y u'] Hu Hu' Hr Hr' E; simpl in *.
  - auto.
  - subst r. simpl in Hr. apply andb_prop in Hu'. destruct Hu' as [Hy _].
    rewrite Hr in Hy. discriminate.
  - subst r'. simpl in Hr'. apply andb_prop in Hu. destruct Hu as [Hx _].
    rewrite Hr' in Hx. discriminate.
  - injection E as -> E. apply andb_prop in Hu. apply andb_prop in Hu'.
    destruct (IH u') as [-> ->]; tauto.
Qed.

Lemma all_ws_ws_or_end r : forallb is_ws r = true -> ws_or_end r.
Proof.
  destruct r; simpl; auto. intros H. apply andb_prop in H. apply H.
Qed.

Lemma line_run_ws pos rest :
  ws_or_end rest -> run true (RGroup 1 url_body) (MState pos rest []) Some = None.
Proof.
  intros W. destruct (run true (RGroup 1 url_body) (MState pos rest []) Some) eqn:E;
    [|reflexivity].
  exfalso. apply line_run_sound in E. destruct E as (u & Hu & -> & _).
  apply bare_url_no_ws in Hu. destruct Hu as [Hn Hne].
  destruct u as [|x u]; [contradiction|]. simpl in *.
  apply andb_prop in Hn. destruct Hn as [Hx _]. rewrite W in Hx. discriminate.
Qed.

Lemma line_pattern :
  re_pattern (lineRegex DEFAULT_SETTINGS) = RGroup 1 url_body
  /\ re_ignoreCase (lineRegex DEFAULT_SETTINGS) = true.
Proof. split; reflexivity. Qed.

Lemma scan_ws ws : forall pos,
  forallb is_ws ws = true ->
  match_all_from (lineRegex DEFAULT_SETTINGS) 0 pos ws = [].
Proof.
  induction ws as [|c ws IH]; intros pos H; cbn [match_all_from];
    destruct line_pattern as [-> ->].
  - rewrite line_run_ws; [reflexivity | exact I].
  - rewrite line_run_ws; [|apply all_ws_ws_or_end; exact H].
    simpl in H. apply andb_prop in H. apply IH, H.
Qed.

Lemma scan_skip re n : forall pos b,
  n <= List.length b ->
  match_all_from re n pos b = match_all_from re 0 (pos + n) (skipn n b).
Proof.
  induction n as [|n IH]; intros pos b H.
  - rewrite Nat.add_0_r. reflexivity.
  - destruct b as [|x b]; [simpl in H; lia|].
    cbn [match_all_from skipn]. rewrite IH; [|simpl in H; lia].
    f_equal. lia.
Qed.

(** A match found at the current index, and the scan going on after it. *)
Lemma scan_hit re pos rest st :
  run (re_ignoreCase re) (re_pattern re) (MState pos rest []) Some = Some st ->
  0 < ms_pos st - pos <= List.length rest ->
  match_all_from re 0 pos rest
  = firstn (ms_pos st - pos) rest
    :: match_all_from re 0 (ms_pos st) (skipn (ms_pos st - pos) rest).
Proof.
  intros R H. destruct rest as [|x rest]; [simpl in H; lia|].
  cbn [match_all_from]. rewrite R. f_equal.
  destruct (ms_pos st - pos) as [|n] eqn:E; [lia|].
  cbn [pred skipn]. rewrite scan_skip; [|simpl in H; lia].
  f_equal. lia.
Qed.

Lemma scan_leading pre : forall pos rest,
  forallb is_ws pre = true ->
  match_all_from (lineRegex DEFAULT_SETTINGS) 0 pos (pre ++ rest)
  = match_all_from (lineRegex DEFAULT_SETTINGS) 0 (pos + List.length pre) rest.
Proof.
  induction pre as [|c pre IH]; intros pos rest H.
  - simpl. rewrite Nat.add_0_r. reflexivity.
  - cbn [app match_all_from]. destruct line_pattern as [-> ->].
    simpl in H. apply andb_prop in H. destruct H as [Hc H].
    rewrite line_run_ws; [|exact Hc].
    rewrite IH; [|exact H]. f_equal. simpl. lia.
Qed.

Lemma skipn_app_length (A : Type) (u r : list A) :
  skipn (List.length u) (u ++ r) = r.
Proof. induction u; simpl; auto. Qed.

Lemma scan_at pos u post :
  bare_url u -> forallb is_ws post = true ->
  match_all_from (lineRegex DEFAULT_SETTINGS) 0 pos (u ++ post) = [u].
Proof.
  intros Hu Hpost.
  destruct (bare_url_no_ws Hu) as [Hn Hne].
  destruct (run true (RGroup 1 url_body) (MState pos (u ++ post) []) Some)
    as [st|] eqn:R; [|exfalso; revert R; apply line_run_complete; exact Hu].
  pose proof R as R'.
  apply line_run_sound in R'. destruct R' as (u' & Hu' & E & P & W).
  destruct (bare_url_no_ws Hu') as [Hn' _].
  destruct (no_ws_prefix_unique u u' post (ms_rest st) Hn Hn'
              (all_ws_ws_or_end _ Hpost) W E) as [<- _].
  assert (Len : ms_pos st - pos = List.length u) by lia.
  assert (0 < List.length u) by (destruct u; [contradiction | simpl; lia]).
  rewrite (@scan_hit (lineRegex DEFAULT_SETTINGS) pos (u ++ post) st R).
  - rewrite Len, firstn_app_length, skipn_app_length, scan_ws; auto.
  - rewrite Len, length_app. lia.
Qed.

Lemma scan_bare_url rest : forall skip pos u,
  In u (match_all_from (lineRegex DEFAULT_SETTINGS) skip pos rest) -> bare_url u.
Proof.
  assert (Hd : forall pos rest st u,
    run true (RGroup 1 url_body) (MState pos rest []) Some = Some st ->
    u = firstn (ms_pos st - pos) rest -> bare_url u).
  { intros pos rest0 st u R ->. apply line_run_sound in R.
    destruct R as (u' & Hu' & -> & P & _).
    replace (ms_pos st - pos) with (List.length u') by lia.
    rewrite firstn_app_length. exact Hu'. }
  induction rest as [|c rest IH]; intros skip pos u H;
    destruct skip as [|skip]; cbn [match_all_from] in H;
    destruct line_pattern as [Ep Ei]; try rewrite Ep, Ei in H.
  - destruct (run true (RGroup 1 url_body) (MState pos [] []) Some) eqn:R;
      [|contradiction].
    destruct H as [<- | []]. eapply Hd; eauto.
  - contradiction.
  - destruct (run true (RGroup 1 url_body) (MState pos (c :: rest) []) Some) eqn:R.
    + destruct H as [<- | H]; [eapply Hd; eauto | eapply IH; eauto].
    + eapply IH; eauto.
  - eapply IH; eauto.
Qed.

(** * The classifier, the link extractor and the handlers *)

(** The syntax trees of [DEFAULT_SETTINGS] are what the five literals of
    [src/settings.ts] parse to. *)
Lemma literals_parse :
  Parse.RegExpCreate regex_source "i" = Normal (regex DEFAULT_SETTINGS)
  /\ Parse.RegExpCreate lineRegex_source "gi" = Normal (lineRegex DEFAULT_SETTINGS)
  /\ Parse.RegExpCreate linkRegex_source "i" = Normal (linkRegex DEFAULT_SETTINGS)
  /\ Parse.RegExpCreate linkLineRegex_source "gi"
     = Normal (linkLineRegex DEFAULT_SETTINGS)
  /\ Parse.RegExpCreate imageRegex_source "i" = Normal (imageRegex DEFAULT_SETTINGS).
Proof. repeat split; vm_compute; reflexivity. Qed.

(** The matcher on a few inputs. *)
Example isUrl_examples :
  CheckIf.isUrl (js "  https://example.com/path  ") = true
  /\ CheckIf.isUrl (js "HTTPS://WWW.Example.com") = true
  /\ CheckIf.isUrl (js "www.a.bc") = true
  /\ CheckIf.isUrl (js "https://a-b.com") = true
  /\ CheckIf.isUrl (js "https://a-.com") = false
  /\ CheckIf.isUrl (js "https://www.ab") = false
  /\ CheckIf.isUrl (js "https://example.c") = false
  /\ CheckIf.isUrl (js "ftp://example.com") = false
  /\ CheckIf.isUrl (js "   ") = false.
Proof. repeat split. Qed.

Example scanLine_example :
  CheckIf.scanLine (js "see https://example.com and www.foo-bar.org/x?y=1 then http://www.ab")
  = [js "https://example.com"; js "www.foo-bar.org/x?y=1"].
Proof. reflexivity. Qed.

Example exec_examples :
  exec (linkRegex DEFAULT_SETTINGS) (js "[Example](https://example.com)")
  = Some [JString (js "[Example](https://example.com)"); JString (js "Example");
          JString (js "https://example.com")]
  /\ exec (linkRegex DEFAULT_SETTINGS) (js "see [Example](https://example.com)") = None
  /\ exec (imageRegex DEFAULT_SETTINGS) (js "photo.jpeg")
     = Some [JString (js ".jpeg"); JString (js "jpeg")]
  /\ exec (imageRegex DEFAULT_SETTINGS) (js "photo.jpg?size=1") = None.
Proof. repeat split. Qed.

(** C2, as the specification words it, fails: [isUrl] rejects a host with
    no prefix, and a host behind [https://] that begins with [www] without
    a dot after it, both of which the worded grammar admits. *)
Lemma isUrl_worded_grammar_counterexample :
  (spec_bare_url (trim (js "example.com/path"))
   /\ CheckIf.isUrl (js "example.com/path") = false)
  /\ (spec_bare_url (trim (js "https://wwwexample.com"))
      /\ CheckIf.isUrl (js "https://wwwexample.com") = false).
Proof.
  split; split; try reflexivity.
  - exists [], (js "example"), (js "com/path").
    repeat split. left. reflexivity.
  - exists (js "https://"), (js "wwwexample"), (js "com").
    repeat split. right; right; left. reflexivity.
Qed.

(** C2, amended: [isUrl s] is true exactly when the trimmed string is a
    prefix, a label, a dot and a tail, where the prefix is required and is
    [www.], [http://] or [https://] followed by [www.], or [http://] or
    [https://] alone before a label that does not begin with [www] (all
    case-insensitive); the label is made of letters, digits and hyphens
    with a letter or digit at both ends; the tail is two or more
    non-white-space units.  In particular [https://example.com/path] is a
    URL. *)
Theorem isUrl_bare_url :
  (forall s, CheckIf.isUrl s = true <-> bare_url (trim s))
  /\ CheckIf.isUrl (js "https://example.com/path") = true.
Proof.
  split; [|reflexivity].
  intros s. unfold CheckIf.isUrl. apply url_regex_spec.
Qed.

Lemma isUrl_bare_url_witness : bare_url (trim (js "https://example.com/path")).
Proof. apply (proj1 isUrl_bare_url). reflexivity. Defined.

(** C3, as the specification words it, fails: [isImage] looks at the end of
    the whole string, not at the end of its path.  A query after the
    extension makes [isImage] false though the path ends in [.jpg], and a
    host that ends in [.ai] is an image to [isImage] though its path is
    empty. *)
Lemma isImage_path_counterexample :
  (spec_is_image (js "https://example.com/photo.jpg?w=100")
   /\ CheckIf.isImage (js "https://example.com/photo.jpg?w=100") = false)
  /\ (~ spec_is_image (js "https://open.ai")
      /\ CheckIf.isImage (js "https://open.ai") = true).
Proof.
  split; split; try reflexivity.
  - exists (js "/photo"), (js "jpg"), "jpg"%string.
    split; [reflexivity|]. split; [|reflexivity].
    right; left; reflexivity.
  - intros (pre & suf & ext & E & _). vm_compute in E.
    destruct pre; discriminate.
Qed.

(** C3, amended: [isImage s] is true exactly when the whole string [s],
    not its path, ends, whatever the case, in a dot followed by one of gif,
    jpg, jpeg, tiff, tif, png, webp, bmp, tga, psd, ai; in particular
    [https://example.com/photo.JPG] is an image. *)
Theorem isImage_extensions :
  (forall s, CheckIf.isImage s = true <-> ends_with_image_extension s)
  /\ CheckIf.isImage (js "https://example.com/photo.JPG") = true.
Proof.
  split; [|reflexivity].
  intros s. unfold CheckIf.isImage. apply image_regex_spec.
Qed.

Lemma isImage_extensions_witness :
  ends_with_image_extension (js "https://example.com/photo.JPG").
Proof. apply (proj1 isImage_extensions). reflexivity. Defined.

(** C4, as stated, fails for [onPaste]: on a text that is both a URL and an
    image it inserts nothing itself. *)
Lemma onPaste_inserts_nothing_counterexample :
  js "https://example.com/photo.JPG" <> []
  /\ CheckIf.isUrl (js "https://example.com/photo.JPG") = true
  /\ CheckIf.isImage (js "https://example.com/photo.JPG") = true
  /\ ~ In (Main.ReplaceSelection (js "https://example.com/photo.JPG"))
         (Main.onPaste CheckIf.isUrl CheckIf.isImage (Some DEFAULT_SETTINGS) true
            {| Main.clipboardData :=
                 Some {| Main.files_length := 0;
                         Main.text_plain := js "https://example.com/photo.JPG" |} |}).
Proof.
  split; [discriminate|]. split; [reflexivity|]. split; [reflexivity|].
  vm_compute. intros [].
Qed.

(** C4, amended: for a non-empty clipboard text that is both a URL and an
    image, [manualPasteAndEnhanceURL] replaces the selection by the text,
    unchanged, and does nothing else; [onPaste] does nothing at all, neither
    an edit nor a conversion nor stopping the event, which leaves the paste
    to the default handler. *)
Theorem paste_image_url_not_converted
    (isUrl isImage : jsstring -> bool) (text : jsstring) :
  text <> [] -> isUrl text = true -> isImage text = true ->
  (forall onLine,
     Main.manualPasteAndEnhanceURL isUrl isImage (JString text) onLine
     = [Main.ReplaceSelection text])
  /\ (forall settings onLine files,
        Main.onPaste isUrl isImage settings onLine
          {| Main.clipboardData :=
               Some {| Main.files_length := files; Main.text_plain := text |} |}
        = []).
Proof.
  intros Hne Hu Hi. split.
  - intros onLine. unfold Main.manualPasteAndEnhanceURL.
    destruct text as [|c text]; [contradiction|].
    rewrite Hu, Hi. destruct onLine; reflexivity.
  - intros settings onLine files. unfold Main.onPaste. simpl.
    destruct text as [|c text]; [contradiction|].
    rewrite Hu, Hi. simpl.
    destruct settings as [s|]; [destruct (enhanceDefaultPaste s)|];
      destruct onLine; destruct (0 <? files); reflexivity.
Qed.

Lemma paste_image_url_not_converted_witness :
  (forall onLine,
     Main.manualPasteAndEnhanceURL CheckIf.isUrl CheckIf.isImage
       (JString (js "https://example.com/photo.JPG")) onLine
     = [Main.ReplaceSelection (js "https://example.com/photo.JPG")])
  /\ (forall settings onLine files,
        Main.onPaste CheckIf.isUrl CheckIf.isImage settings onLine
          {| Main.clipboardData :=
               Some {| Main.files_length := files;
                       Main.text_plain := js "https://example.com/photo.JPG" |} |}
        = []).
Proof.
  apply (@paste_image_url_not_converted CheckIf.isUrl CheckIf.isImage
           (js "https://example.com/photo.JPG"));
    [discriminate | reflexivity | reflexivity].
Defined.

(** C5, as the specification words it, fails: a label with an escaped
    bracket has no unescaped bracket, yet [isLinkedUrl] rejects it. *)
Lemma isLinkedUrl_escaped_bracket_counterexample :
  spec_linked_url (trim (js "[a\]b](https://example.com)"))
  /\ CheckIf.isLinkedUrl (js "[a\]b](https://example.com)") = false.
Proof.
  split; [|reflexivity].
  exists (js "a\]b"), (js "https://example.com").
  split; [reflexivity|]. split; [reflexivity|].
  exists (js "https://"), (js "example"), (js "com").
  repeat split. right; right; left. reflexivity.
Qed.

(** C5, amended: [isLinkedUrl s] is true exactly when the trimmed string is
    [[label](URL)] where the label contains no square bracket at all,
    escaped or not, and the URL is a bare URL as [isUrl] takes it. *)
Theorem isLinkedUrl_linked_url s :
  CheckIf.isLinkedUrl s = true <-> linked_url (trim s).
Proof. unfold CheckIf.isLinkedUrl. apply link_regex_spec. Qed.

Lemma isLinkedUrl_linked_url_witness :
  linked_url (trim (js "[Example](https://example.com)")).
Proof. apply (proj1 (isLinkedUrl_linked_url _)). reflexivity. Defined.

(** C6: on [[label](URL)], with no bracket in the label and a URL that the
    bare-URL pattern accepts, [getUrlFromLink] returns the URL; in
    particular on [[Example](https://example.com)]. *)
Theorem getUrlFromLink_url :
  (forall label url,
     forallb (fun c => negb (is_bracket c)) label = true ->
     test (regex DEFAULT_SETTINGS) url = true ->
     Main.getUrlFromLink (js "[" ++ label ++ js "](" ++ url ++ js ")")
     = JString url)
  /\ Main.getUrlFromLink (js "[Example](https://example.com)")
     = JString (js "https://example.com").
Proof.
  split; [|reflexivity].
  intros label url Hl Hu. apply url_regex_spec in Hu.
  unfold Main.getUrlFromLink.
  change (Main.newRegExp Main.linkRegex) with (linkRegex DEFAULT_SETTINGS).
  change (js "[" ++ label ++ js "](" ++ url ++ js ")")
    with (91%N :: label ++ 93%N :: 40%N :: url ++ [41%N]).
  destruct (exec (linkRegex DEFAULT_SETTINGS)
              (91%N :: label ++ 93%N :: 40%N :: url ++ [41%N])) as [arr|] eqn:E.
  - apply link_exec_sound in E.
    destruct E as (label' & url' & Es & Hl' & Hu' & ->).
    injection Es as Es. apply label_unique in Es; auto.
    destruct Es as [_ Es]. injection Es as Es. apply app_inv_tail in Es.
    subst url'. reflexivity.
  - exfalso. revert E. apply link_exec_complete. exists label, url. auto.
Qed.

Lemma getUrlFromLink_url_witness :
  Main.getUrlFromLink (js "[" ++ js "docs" ++ js "](" ++ js "www.example.org/a" ++ js ")")
  = JString (js "www.example.org/a").
Proof. apply (proj1 getUrlFromLink_url); reflexivity. Defined.

(** C9: when the trimmed selection is neither a URL nor a linked URL,
    [enhanceSelectedURL] does nothing: no conversion is asked for. *)
Theorem enhanceSelectedURL_no_match
    (isUrl isLinkedUrl : jsstring -> bool) (selection : jsval) :
  isUrl (trim (Main.or_empty selection)) = false ->
  isLinkedUrl (trim (Main.or_empty selection)) = false ->
  Main.enhanceSelectedURL isUrl isLinkedUrl selection = [].
Proof.
  intros Hu Hl. unfold Main.enhanceSelectedURL. rewrite Hu, Hl. reflexivity.
Qed.

Lemma enhanceSelectedURL_no_match_witness :
  Main.enhanceSelectedURL CheckIf.isUrl CheckIf.isLinkedUrl
    (JString (js " just some words ")) = [].
Proof. apply enhanceSelectedURL_no_match; reflexivity. Defined.

(** C10: on a string that the link pattern does not match, and on any match
    array with fewer than two entries, [getUrlFromLink] returns the empty
    string; and whatever the string, what it returns is a string, never
    [undefined]. *)
Theorem getUrlFromLink_no_match :
  (forall link,
     test Main.linkRegex link = false -> Main.getUrlFromLink link = JString [])
  /\ (forall arr,
        List.length arr < 2 -> Main.urlOfExecArray (Some arr) = JString [])
  /\ (forall link, exists s, Main.getUrlFromLink link = JString s).
Proof.
  split; [|split].
  - intros link H. unfold Main.getUrlFromLink, test in *.
    change (Main.newRegExp Main.linkRegex) with Main.linkRegex.
    destruct (exec Main.linkRegex link); [discriminate | reflexivity].
  - intros arr H. unfold Main.urlOfExecArray.
    apply Nat.ltb_lt in H. rewrite H. reflexivity.
  - intros link. unfold Main.getUrlFromLink.
    change (Main.newRegExp Main.linkRegex) with (linkRegex DEFAULT_SETTINGS).
    destruct (exec (linkRegex DEFAULT_SETTINGS) link) as [arr|] eqn:E.
    + apply link_exec_sound in E. destruct E as (label & url & _ & _ & _ & ->).
      exists url. reflexivity.
    + exists []. reflexivity.
Qed.

Lemma getUrlFromLink_no_match_witness :
  Main.getUrlFromLink (js "Example](https://example.com)") = JString []
  /\ Main.urlOfExecArray (Some [JString (js "x")]) = JString [].
Proof.
  split.
  - apply (proj1 getUrlFromLink_no_match). reflexivity.
  - apply (proj1 (proj2 getUrlFromLink_no_match)). simpl. lia.
Defined.

(** * Further properties of the patterns and of [src/main.ts] *)

(** ** Shape of what the URL pattern accepts *)

Lemma ci_eq_head p s c rest :
  ci_eq p s -> map canonicalize (js s) = c :: rest ->
  exists x r, p = x :: r /\ canonicalize x = c.
Proof.
  unfold ci_eq. intros H E. rewrite E in H.
  destruct p as [|x r]; [discriminate|].
  injection H as Hx _. eauto.
Qed.

Lemma bare_url_head u :
  bare_url u ->
  exists x r, u = x :: r /\ (canonicalize x = 72 \/ canonicalize x = 87)%N.
Proof.
  intros (p & l & t & -> & Hp & _).
  assert (exists x r, p = x :: r /\ (canonicalize x = 72 \/ canonicalize x = 87)%N)
    as (x & r & -> & Hx).
  { destruct Hp as [H | [H | [H | [[H | H] _]]]];
      (eapply ci_eq_head in H; [|reflexivity]);
      destruct H as (x & r & -> & Hx); exists x, r; auto. }
  exists x, (r ++ l ++ 46%N :: t). auto.
Qed.

Lemma is_label_length l : is_label l = true -> 1 <= List.length l.
Proof.
  destruct l; [discriminate | simpl; lia].
Qed.

Lemma url_prefix_length p l : url_prefix p l -> 4 <= List.length p.
Proof.
  intros [H | [H | [H | [[H | H] _]]]];
    apply ci_eq_length in H; rewrite H; simpl; lia.
Qed.

(** X1: what the bare-URL pattern accepts holds no white space and is at
    least 8 units long (as [www.a.bc] is). *)
Theorem url_no_space_min_length s :
  test (regex DEFAULT_SETTINGS) s = true ->
  forallb (fun c => negb (is_ws c)) s = true /\ 8 <= List.length s.
Proof.
  intros H. apply url_regex_spec in H. split.
  - apply (bare_url_no_ws H).
  - destruct H as (p & l & t & -> & Hp & Hl & Ht).
    apply url_prefix_length in Hp. apply is_label_length in Hl.
    unfold is_tail in Ht. apply andb_prop in Ht. destruct Ht as [Ht _].
    apply Nat.leb_le in Ht.
    rewrite !length_app. cbn [List.length]. unfold jsstring, code_unit in *. lia.
Qed.

Lemma url_no_space_min_length_witness :
  forallb (fun c => negb (is_ws c)) (js "www.a.bc") = true
  /\ 8 <= List.length (js "www.a.bc").
Proof. apply url_no_space_min_length. reflexivity. Defined.

(** X2: no string is accepted both by the bare-URL pattern and by the link
    pattern: a URL begins with [h] or [w], a link with a bracket. *)
Theorem url_link_disjoint s :
  test (regex DEFAULT_SETTINGS) s && test (linkRegex DEFAULT_SETTINGS) s = false.
Proof.
  destruct (test (regex DEFAULT_SETTINGS) s) eqn:U; [|reflexivity].
  destruct (test (linkRegex DEFAULT_SETTINGS) s) eqn:L; [|reflexivity].
  exfalso. apply url_regex_spec, bare_url_head in U. apply link_regex_spec in L.
  destruct U as (x & r & -> & Hx). destruct L as (label & u & E & _).
  injection E as -> _. vm_compute in Hx. destruct Hx; discriminate.
Qed.

(** ** [getUrlFromLink], in full *)

Lemma getUrlFromLink_exec link :
  Main.getUrlFromLink link
  = Main.urlOfExecArray (exec (linkRegex DEFAULT_SETTINGS) link).
Proof. reflexivity. Qed.

Lemma getUrlFromLink_match link :
  test (linkRegex DEFAULT_SETTINGS) link = true ->
  exists label url,
    link = js "[" ++ label ++ js "](" ++ url ++ js ")"
    /\ forallb (fun c => negb (is_bracket c)) label = true
    /\ bare_url url
    /\ Main.getUrlFromLink link = JString url.
Proof.
  intros H. rewrite getUrlFromLink_exec. unfold test in H.
  destruct (exec (linkRegex DEFAULT_SETTINGS) link) as [arr|] eqn:E; [|discriminate].
  apply link_exec_sound in E. destruct E as (label & url & -> & Hl & Hu & ->).
  exists label, url. auto.
Qed.

Lemma getUrlFromLink_miss link :
  test (linkRegex DEFAULT_SETTINGS) link = false ->
  Main.getUrlFromLink link = JString [].
Proof.
  intros H. rewrite getUrlFromLink_exec. unfold test in H.
  destruct (exec (linkRegex DEFAULT_SETTINGS) link); [discriminate | reflexivity].
Qed.

(** X3: [getUrlFromLink] returns a non-empty string [u] exactly on the
    links [[label](u)] with a bracket-free label and a [u] that the
    bare-URL pattern accepts; it returns the empty string exactly when the
    link pattern does not match, so the empty string is an unambiguous
    signal. *)
Theorem getUrlFromLink_spec link :
  (forall u, u <> [] ->
     (Main.getUrlFromLink link = JString u
      <-> exists label,
            link = js "[" ++ label ++ js "](" ++ u ++ js ")"
            /\ forallb (fun c => negb (is_bracket c)) label = true
            /\ test (regex DEFAULT_SETTINGS) u = true))
  /\ (Main.getUrlFromLink link = JString []
      <-> test (linkRegex DEFAULT_SETTINGS) link = false).
Proof.
  split.
  - intros u Hne. split.
    + intros H. destruct (test (linkRegex DEFAULT_SETTINGS) link) eqn:T.
      * apply getUrlFromLink_match in T.
        destruct T as (label & url & E & Hl & Hu & G).
        rewrite G in H. injection H as ->.
        exists label. split; [exact E|]. split; [exact Hl|].
        apply url_regex_spec. exact Hu.
      * apply getUrlFromLink_miss in T. rewrite T in H. injection H as <-.
        contradiction.
    + intros (label & E & Hl & Hu). apply url_regex_spec in Hu.
      assert (T : test (linkRegex DEFAULT_SETTINGS) link = true).
      { apply link_regex_spec. exists label, u. auto. }
      apply getUrlFromLink_match in T.
      destruct T as (label' & url' & E' & Hl' & Hu' & G).
      rewrite G. f_equal. rewrite E in E'.
      injection E' as E'. apply label_unique in E'; auto.
      destruct E' as [_ E']. injection E' as E'. apply app_inv_tail in E'. auto.
  - split.
    + intros H. destruct (test (linkRegex DEFAULT_SETTINGS) link) eqn:T; [|reflexivity].
      apply getUrlFromLink_match in T. destruct T as (label & url & _ & _ & Hu & G).
      rewrite G in H. injection H as ->.
      destruct (bare_url_no_ws Hu) as [_ N]. contradiction.
    + apply getUrlFromLink_miss.
Qed.

Lemma getUrlFromLink_spec_witness :
  Main.getUrlFromLink (js "[docs](www.example.org/a)") = JString (js "www.example.org/a").
Proof.
  apply (proj1 (getUrlFromLink_spec _) (js "www.example.org/a")); [discriminate|].
  exists (js "docs"). repeat split.
Defined.

(** ** The [i] flag: letter case never matters *)

Lemma atom_matches_fold a x y :
  canonicalize x = canonicalize y ->
  atom_matches true a x = atom_matches true a y.
Proof.
  intros H. destruct a as [c | neg atoms]; simpl.
  - unfold char_eq. rewrite H. reflexivity.
  - f_equal. induction atoms as [|b atoms IH]; simpl; [reflexivity|].
    rewrite IH. f_equal. destruct b as [c | lo hi |]; simpl.
    + unfold char_eq. rewrite H. reflexivity.
    + rewrite H. reflexivity.
    + rewrite <- (is_ws_canonicalize x), H. apply is_ws_canonicalize.
Qed.

Lemma rep_greedy_fold a k k' :
  (forall s s', same_fold s s' -> same_fold_opt (k s) (k' s')) ->
  forall rest rest' min max pos caps caps',
    map canonicalize rest = map canonicalize rest' ->
    same_fold_opt (rep_greedy true a k min max pos caps rest)
                  (rep_greedy true a k' min max pos caps' rest').
Proof.
  intros Hk.
  assert (Stop : forall min pos caps caps' rest rest',
    map canonicalize rest = map canonicalize rest' ->
    same_fold_opt
      match min with 0 => k (MState pos rest caps) | S _ => None end
      match min with 0 => k' (MState pos rest' caps') | S _ => None end).
  { intros [|min] pos caps caps' rest rest' E; [|exact I].
    apply Hk. split; auto. }
  induction rest as [|x xs IH]; intros [|y ys] min max pos caps caps' E;
    try discriminate; cbn [rep_greedy].
  - apply Stop. reflexivity.
  - simpl in E. injection E as Ex E.
    rewrite (atom_matches_fold a _ _ Ex).
    destruct (max_allows max && atom_matches true a y).
    + specialize (IH ys (pred min) (max_pred max) (S pos) caps caps' E).
      destruct (rep_greedy true a k (pred min) (max_pred max) (S pos) caps xs),
        (rep_greedy true a k' (pred min) (max_pred max) (S pos) caps' ys);
        simpl in IH; try contradiction.
      * exact IH.
      * apply Stop. simpl. rewrite Ex, E. reflexivity.
    + apply Stop. simpl. rewrite Ex, E. reflexivity.
Qed.

Lemma run_fold r :
  forall st st' k k',
    same_fold st st' ->
    (forall s s', same_fold s s' -> same_fold_opt (k s) (k' s')) ->
    same_fold_opt (run true r st k) (run true r st' k').
Proof.
  induction r as [ | a | r1 IH1 r2 IH2 | r1 IH1 r2 IH2
                 | min max a | i r1 IH1 | r1 IH1 | | ];
    intros [pos rest caps] [pos' rest' caps'] k k' [P R] Hk;
    cbn [ms_pos ms_rest] in P, R; subst pos'; cbn [run ms_pos ms_rest ms_caps].
  - apply Hk. split; auto.
  - destruct rest as [|x xs], rest' as [|y ys]; try discriminate; [exact I|].
    simpl in R. injection R as Rx R.
    rewrite (atom_matches_fold a _ _ Rx).
    destruct (atom_matches true a y); [|exact I].
    apply Hk. split; simpl; auto.
  - apply IH1; [split; auto|]. intros s s' Hs. apply IH2; auto.
  - assert (S0 : same_fold (MState pos rest caps) (MState pos rest' caps'))
      by (split; auto).
    pose proof (IH1 _ _ k k' S0 Hk) as H1.
    destruct (run true r1 (MState pos rest caps) k),
      (run true r1 (MState pos rest' caps') k'); simpl in H1;
      try contradiction; [exact H1|].
    apply IH2; auto.
  - apply rep_greedy_fold; auto.
  - apply IH1; [split; auto|]. intros s s' [Ps Rs]. apply Hk. split; simpl; auto.
  - assert (S0 : same_fold (MState pos rest caps) (MState pos rest' caps'))
      by (split; auto).
    assert (H1 : same_fold_opt (run true r1 (MState pos rest caps) Some)
                               (run true r1 (MState pos rest' caps') Some)).
    { apply IH1; [exact S0|]. intros s s' Hs. exact Hs. }
    destruct (run true r1 (MState pos rest caps) Some),
      (run true r1 (MState pos rest' caps') Some); simpl in H1;
      try contradiction; [exact I|].
    apply Hk. exact S0.
  - destruct (pos =? 0); [|exact I]. apply Hk. split; auto.
  - destruct rest as [|x xs], rest' as [|y ys]; try discriminate; [|exact I].
    apply Hk. split; auto.
Qed.

Lemma search_fold re :
  re_ignoreCase re = true ->
  forall rest rest' pos,
    map canonicalize rest = map canonicalize rest' ->
    (search re pos rest = None <-> search re pos rest' = None).
Proof.
  intros Hic.
  assert (Run : forall pos rest rest',
    map canonicalize rest = map canonicalize rest' ->
    same_fold_opt
      (run (re_ignoreCase re) (re_pattern re) (MState pos rest []) Some)
      (run (re_ignoreCase re) (re_pattern re) (MState pos rest' []) Some)).
  { intros pos rest rest' E. rewrite Hic.
    apply run_fold; [split; auto|]. intros s s' Hs. exact Hs. }
  induction rest as [|x xs IH]; intros [|y ys] pos E; try discriminate;
    cbn [search]; specialize (Run pos _ _ E).
  - tauto.
  - destruct (run (re_ignoreCase re) (re_pattern re) (MState pos (x :: xs) []) Some),
      (run (re_ignoreCase re) (re_pattern re) (MState pos (y :: ys) []) Some);
      simpl in Run; try contradiction.
    + split; discriminate.
    + simpl in E. injection E as _ E. apply IH. exact E.
Qed.

Lemma test_fold re s s' :
  re_ignoreCase re = true ->
  map canonicalize s = map canonicalize s' ->
  test re s = test re s'.
Proof.
  intros Hic E. unfold test, exec.
  pose proof (search_fold re Hic s s' 0 E) as H.
  destruct (search re 0 s) as [[[a b] c]|], (search re 0 s') as [[[a' b'] c']|];
    try reflexivity.
  - destruct H as [_ H]. discriminate H. reflexivity.
  - destruct H as [H _]. discriminate H. reflexivity.
Qed.

(** X4: two strings that differ only in the case of ASCII letters are
    classified alike by the bare-URL, the link and the image pattern: the
    case of the scheme, the host, the path and the extension never
    matters. *)
Theorem patterns_ignore_case s s' :
  map canonicalize s = map canonicalize s' ->
  test (regex DEFAULT_SETTINGS) s = test (regex DEFAULT_SETTINGS) s'
  /\ test (linkRegex DEFAULT_SETTINGS) s = test (linkRegex DEFAULT_SETTINGS) s'
  /\ test (imageRegex DEFAULT_SETTINGS) s = test (imageRegex DEFAULT_SETTINGS) s'.
Proof.
  intros E. repeat split; apply test_fold; auto.
Qed.

Lemma patterns_ignore_case_witness :
  test (regex DEFAULT_SETTINGS) (js "HTTPS://Example.COM/Photo.PNG")
  = test (regex DEFAULT_SETTINGS) (js "https://example.com/photo.png")
  /\ test (linkRegex DEFAULT_SETTINGS) (js "HTTPS://Example.COM/Photo.PNG")
     = test (linkRegex DEFAULT_SETTINGS) (js "https://example.com/photo.png")
  /\ test (imageRegex DEFAULT_SETTINGS) (js "HTTPS://Example.COM/Photo.PNG")
     = test (imageRegex DEFAULT_SETTINGS) (js "https://example.com/photo.png").
Proof. apply patterns_ignore_case. reflexivity. Defined.

(** ** The line scan on a text of URLs *)

Lemma scan_at_more pos u post :
  bare_url u -> ws_or_end post ->
  match_all_from (lineRegex DEFAULT_SETTINGS) 0 pos (u ++ post)
  = u :: match_all_from (lineRegex DEFAULT_SETTINGS) 0 (pos + List.length u) post.
Proof.
  intros Hu Hpost.
  destruct (bare_url_no_ws Hu) as [Hn Hne].
  destruct (run true (RGroup 1 url_body) (MState pos (u ++ post) []) Some)
    as [st|] eqn:R; [|exfalso; revert R; apply line_run_complete; exact Hu].
  pose proof R as R'.
  apply line_run_sound in R'. destruct R' as (u' & Hu' & E & P & W).
  destruct (bare_url_no_ws Hu') as [Hn' _].
  destruct (no_ws_prefix_unique u u' post (ms_rest st) Hn Hn' Hpost W E) as [<- _].
  assert (Len : ms_pos st - pos = List.length u) by lia.
  assert (0 < List.length u) by (destruct u; [contradiction | simpl; lia]).
  rewrite (@scan_hit (lineRegex DEFAULT_SETTINGS) pos (u ++ post) st R).
  - rewrite Len, firstn_app_length, skipn_app_length. f_equal. f_equal. lia.
  - rewrite Len, length_app. lia.
Qed.

Lemma ws_or_end_gap (g r : jsstring) :
  g <> [] -> forallb is_ws g = true -> ws_or_end (g ++ r).
Proof.
  destruct g as [|c g]; [contradiction|]. simpl. intros _ H.
  apply andb_prop in H. apply H.
Qed.

(** X5: a text made of URLs that the bare-URL pattern accepts, set apart by
    white space (with white space before and after if one likes), is
    scanned by the line pattern into exactly those URLs, in order. *)
Theorem line_scan_spaced_urls lead items last trail :
  forallb is_ws lead = true ->
  Forall (fun p => test (regex DEFAULT_SETTINGS) (fst p) = true
                   /\ snd p <> [] /\ forallb is_ws (snd p) = true) items ->
  test (regex DEFAULT_SETTINGS) last = true ->
  forallb is_ws trail = true ->
  match_all (lineRegex DEFAULT_SETTINGS) (lead ++ spaced items ++ last ++ trail)
  = map fst items ++ [last].
Proof.
  intros Hlead Hitems Hlast Htrail. unfold match_all.
  rewrite scan_leading; [|exact Hlead]. generalize (0 + List.length lead).
  apply url_regex_spec in Hlast.
  induction Hitems as [|[u g] items (Hu & Hg & Hws) _ IH]; intros pos.
  - simpl. apply scan_at; auto.
  - unfold spaced. cbn [map List.concat fst snd app]. fold (spaced items).
    apply url_regex_spec in Hu.
    rewrite <- !app_assoc.
    rewrite scan_at_more; [|exact Hu | apply ws_or_end_gap; auto].
    rewrite scan_leading; [|exact Hws].
    rewrite IH. reflexivity.
Qed.

Lemma line_scan_spaced_urls_witness :
  match_all (lineRegex DEFAULT_SETTINGS)
    (js " " ++ spaced [(js "https://a.example.com/x", js "  ")]
     ++ js "www.b.org/y" ++ js "")
  = [js "https://a.example.com/x"; js "www.b.org/y"].
Proof.
  apply (@line_scan_spaced_urls (js " ")
           [(js "https://a.example.com/x", js "  ")] (js "www.b.org/y") (js ""));
    try reflexivity.
  constructor; [|constructor]. repeat split. discriminate.
Defined.

(** ** The global link pattern against the anchored one *)

Lemma rep_greedy_before ic a c k rest :
  reads_unit c k -> atom_matches ic a c = true ->
  forall min pos caps res,
    rep_greedy ic a k min None pos caps rest = Some res ->
    unreachable ic a c (ms_rest res).
Proof.
  intros [K1 K2] Hc.
  induction rest as [|x xs IH]; intros min pos caps res H; cbn [rep_greedy] in H.
  - destruct min; [|discriminate]. apply K1 in H. discriminate.
  - cbn [max_allows andb] in H.
    destruct (atom_matches ic a x) eqn:Ex.
    + destruct (rep_greedy ic a k (pred min) (max_pred None) (S pos) caps xs)
        as [r|] eqn:R.
      * injection H as ->. eapply IH. exact R.
      * destruct min; [|discriminate].
        apply K1 in H. cbn [ms_rest] in H. injection H as -> <-.
        intros u rest' E Hu. revert R. rewrite E.
        apply rep_greedy_complete; auto; [simpl; lia | exact I|].
        eapply K2. reflexivity.
    + destruct min; [|discriminate].
      apply K1 in H. cbn [ms_rest] in H. injection H as -> _. congruence.
Qed.

Lemma run_before ic a c r :
  ends_greedy a r -> atom_matches ic a c = true ->
  forall st k res,
    reads_unit c k -> run ic r st k = Some res ->
    unreachable ic a c (ms_rest res).
Proof.
  intros G Hc. revert G.
  induction r as [ | a' | r1 IH1 r2 IH2 | r1 IH1 r2 IH2
                 | min max a' | i r1 IH1 | r1 IH1 | | ];
    simpl; intros G st k res Hk H; try contradiction.
  - apply run_sound in H. destruct H as (mid & _ & H). eapply IH2; eauto.
  - destruct G as [G1 G2]. destruct (run ic r1 st k) eqn:E.
    + injection H as ->. eapply IH1; eauto.
    + eapply IH2; eauto.
  - destruct max; [contradiction|]. subst a'.
    eapply rep_greedy_before; eauto.
  - eapply (IH1 G); [|exact H].
    destruct Hk as [K1 K2]. split.
    + intros st' res' E. apply K1 in E. exact E.
    + intros st' rest' E. eapply K2. exact E.
Qed.

Lemma run_seq ic r1 r2 st k :
  run ic (RSeq r1 r2) st k = run ic r1 st (fun st' => run ic r2 st' k).
Proof. reflexivity. Qed.

Lemma close_paren_reads :
  reads_unit 41%N (fun st => run true (chr ")") st Some).
Proof.
  split.
  - intros [pos rest caps] res H. unfold chr in H. cbn [run ms_rest] in H.
    destruct rest as [|x xs]; [discriminate|].
    destruct (atom_matches true (AChar (N_of_ascii ")")) x) eqn:Ex; [|discriminate].
    injection H as <-. rewrite char_matches in Ex. apply N.eqb_eq in Ex.
    apply canonicalize_fixed in Ex; [|left; reflexivity].
    rewrite Ex. reflexivity.
  - intros [pos rest caps] rest' E. cbn [ms_rest] in E. subst rest.
    discriminate.
Qed.

Lemma link_line_pattern :
  re_pattern (linkLineRegex DEFAULT_SETTINGS)
  = RSeq (chr "[") (RSeq (RGroup 1 (RRep 0 None non_bracket))
      (RSeq (chr "]") (RSeq (chr "(") (RSeq (RGroup 2 url_body) (chr ")")))))
  /\ re_pattern (linkLineRegex DEFAULT_SETTINGS) = seq_of link_terms
  /\ re_ignoreCase (linkLineRegex DEFAULT_SETTINGS) = true.
Proof. repeat split. Qed.

Lemma link_line_run_sound pos rest res :
  run true (seq_of link_terms) (MState pos rest []) Some = Some res ->
  exists u,
    linked_url u /\ rest = u ++ ms_rest res
    /\ ms_pos res = pos + List.length u
    /\ unreachable true non_space 41%N (ms_rest res).
Proof.
  intros H.
  assert (G : unreachable true non_space 41%N (ms_rest res)).
  { change (seq_of link_terms)
      with (RSeq (chr "[") (RSeq (RGroup 1 (RRep 0 None non_bracket))
             (RSeq (chr "]") (RSeq (chr "(")
                (RSeq (RGroup 2 url_body) (chr ")")))))) in H.
    rewrite run_seq in H. apply run_sound in H. destruct H as (m1 & _ & H).
    rewrite run_seq in H. apply run_sound in H. destruct H as (m2 & _ & H).
    rewrite run_seq in H. apply run_sound in H. destruct H as (m3 & _ & H).
    rewrite run_seq in H. apply run_sound in H. destruct H as (m4 & _ & H).
    rewrite run_seq in H.
    apply (@run_before true non_space 41%N (RGroup 2 url_body)
             url_body_ends_greedy eq_refl _ _ _ close_paren_reads H). }
  apply run_sound in H. destruct H as (st' & M & E). injection E as ->.
  apply Match_seq_of, recognizes_link_terms in M.
  destruct M as (u & cs & (R & P & _) & label & url & -> & _ & Hl & Hu).
  cbn [ms_rest ms_pos] in R, P.
  eexists. split; [exists label, url; eauto|]. auto.
Qed.

Lemma link_line_run_complete pos u rest' :
  linked_url u ->
  run true (seq_of link_terms) (MState pos (u ++ rest') []) Some <> None.
Proof.
  intros (label & url & -> & Hl & Hu).
  set (u := 91%N :: label ++ 93%N :: 40%N :: url ++ [41%N]).
  apply run_complete
    with (st' := MState (pos + List.length u) rest' [(2, url); (1, label)]);
    [|discriminate].
  apply Match_seq_of, recognizes_link_terms.
  exists u, [(2, url); (1, label)]. split.
  - unfold steps; simpl. auto.
  - exists label, url. auto.
Qed.

Lemma scan_matches re (P : jsstring -> Prop) :
  (forall pos rest st,
     run (re_ignoreCase re) (re_pattern re) (MState pos rest []) Some = Some st ->
     P (firstn (ms_pos st - pos) rest)) ->
  forall rest skip pos m, In m (match_all_from re skip pos rest) -> P m.
Proof.
  intros Hd.
  induction rest as [|c rest IH]; intros skip pos m H;
    destruct skip as [|skip]; cbn [match_all_from] in H.
  - destruct (run (re_ignoreCase re) (re_pattern re) (MState pos [] []) Some) eqn:R;
      [|contradiction].
    destruct H as [<- | []]. eapply Hd; eauto.
  - contradiction.
  - destruct (run (re_ignoreCase re) (re_pattern re) (MState pos (c :: rest) []) Some)
      eqn:R.
    + destruct H as [<- | H]; [eapply Hd; eauto | eapply IH; eauto].
    + eapply IH; eauto.
  - eapply IH; eauto.
Qed.

(** X6: the global link pattern finds what the anchored one accepts: a
    string that [linkRegex] accepts is the one match of [linkLineRegex] on
    it, and every match of [linkLineRegex] in any text is accepted by
    [linkRegex]. *)
Theorem link_scan_agrees :
  (forall s, test (linkRegex DEFAULT_SETTINGS) s = true ->
     match_all (linkLineRegex DEFAULT_SETTINGS) s = [s])
  /\ (forall s m, In m (match_all (linkLineRegex DEFAULT_SETTINGS) s) ->
        test (linkRegex DEFAULT_SETTINGS) m = true).
Proof.
  destruct link_line_pattern as (_ & Ep & Ei). split.
  - intros s H. apply link_regex_spec in H. unfold match_all.
    destruct (run true (seq_of link_terms) (MState 0 s []) Some) as [res|] eqn:R.
    2:{ exfalso. revert R. rewrite <- (app_nil_r s).
        apply link_line_run_complete. exact H. }
    pose proof R as R'. apply link_line_run_sound in R'.
    destruct R' as (u & Hu & E & P & G).
    assert (N : ms_rest res = []).
    { destruct H as (label & url & Es & Hl & Hurl).
      destruct Hu as (label' & url' & Eu & Hl' & Hurl').
      destruct (ms_rest res) as [|z0 zs] eqn:Er; [reflexivity|]. exfalso.
      destruct (@exists_last _ (z0 :: zs)) as (w & z & Ew); [discriminate|].
      rewrite Ew in *. rewrite Es, Eu in E. simpl in E. injection E as E.
      rewrite <- !app_assoc in E. simpl in E. rewrite <- app_assoc in E. simpl in E.
      apply label_unique in E; auto. destruct E as [_ E]. injection E as E.
      change (url ++ [41%N] = url' ++ (41%N :: w) ++ [z]) in E.
      rewrite app_assoc in E. apply app_inj_tail in E. destruct E as [E <-].
      apply (G w []); [reflexivity|].
      destruct (bare_url_no_ws Hurl) as [Hn _]. rewrite E in Hn.
      unfold no_ws in Hn. rewrite forallb_app in Hn. apply andb_prop in Hn.
      destruct Hn as [_ Hn]. simpl in Hn.
      exact (forallb_eq_true _ _ _ non_space_matches Hn). }
    rewrite N, app_nil_r in E. subst u. cbn [Nat.add] in P.
    assert (Len : ms_pos res - 0 = List.length s) by lia.
    assert (0 < List.length s).
    { destruct H as (label & url & -> & _). simpl. lia. }
    rewrite (@scan_hit (linkLineRegex DEFAULT_SETTINGS) 0 s res).
    + rewrite Len, firstn_all, skipn_all. reflexivity.
    + rewrite Ep, Ei. exact R.
    + lia.
  - intros s m H. unfold match_all in H.
    apply (@scan_matches (linkLineRegex DEFAULT_SETTINGS)
             (fun m => test (linkRegex DEFAULT_SETTINGS) m = true)) in H; [exact H|].
    intros pos rest st R. rewrite Ep, Ei in R.
    apply link_line_run_sound in R. destruct R as (u & Hu & -> & P & _).
    replace (ms_pos st - pos) with (List.length u) by lia.
    rewrite firstn_app_length. apply link_regex_spec. exact Hu.
Qed.

Lemma link_scan_agrees_witness :
  match_all (linkLineRegex DEFAULT_SETTINGS) (js "[a (b)](www.example.org/x_(y))")
  = [js "[a (b)](www.example.org/x_(y))"]
  /\ test (linkRegex DEFAULT_SETTINGS) (js "[Example](https://example.com)") = true.
Proof.
  split.
  - apply (proj1 link_scan_agrees). reflexivity.
  - apply (proj2 link_scan_agrees (js "see [Example](https://example.com) there")).
    vm_compute. left. reflexivity.
Defined.

(** ** The handlers of [src/main.ts] *)

(** X7: when the trimmed selection is not taken as a URL, is taken as a
    linked URL and the link pattern matches it, the selection is a link
    [[label](url)] and [enhanceSelectedURL] asks for the conversion of the
    [url] inside it, which the bare-URL pattern accepts, and for nothing
    else. *)
Theorem enhanceSelectedURL_link
    (isUrl isLinkedUrl : jsstring -> bool) (selection : jsval) :
  isUrl (trim (Main.or_empty selection)) = false ->
  isLinkedUrl (trim (Main.or_empty selection)) = true ->
  test (linkRegex DEFAULT_SETTINGS) (trim (Main.or_empty selection)) = true ->
  exists label url,
    trim (Main.or_empty selection) = js "[" ++ label ++ js "](" ++ url ++ js ")"
    /\ test (regex DEFAULT_SETTINGS) url = true
    /\ Main.enhanceSelectedURL isUrl isLinkedUrl selection
       = [Main.ConvertUrlToCodeBlock (JString url)].
Proof.
  intros Hu Hl Hm. unfold Main.enhanceSelectedURL. rewrite Hu, Hl.
  apply getUrlFromLink_match in Hm.
  destruct Hm as (label & url & E & _ & Hurl & G).
  exists label, url. split; [exact E|]. split; [apply url_regex_spec; exact Hurl|].
  rewrite G. reflexivity.
Qed.

Lemma enhanceSelectedURL_link_witness :
  exists label url,
    trim (Main.or_empty (JString (js "  [docs](https://example.org/a) ")))
    = js "[" ++ label ++ js "](" ++ url ++ js ")"
    /\ test (regex DEFAULT_SETTINGS) url = true
    /\ Main.enhanceSelectedURL
         (test (regex DEFAULT_SETTINGS)) (test (linkRegex DEFAULT_SETTINGS))
         (JString (js "  [docs](https://example.org/a) "))
       = [Main.ConvertUrlToCodeBlock (JString url)].
Proof. apply enhanceSelectedURL_link; reflexivity. Defined.

(** X8: [enhanceSelectedURL] never edits the document or touches an event:
    it does nothing or asks for one conversion, always of a string.  It
    does not check what [getUrlFromLink] returns: when the selection is
    taken as a linked URL but the link pattern does not match it, the
    conversion of the empty string is asked for. *)
Theorem enhanceSelectedURL_one_conversion
    (isUrl isLinkedUrl : jsstring -> bool) (selection : jsval) :
  (Main.enhanceSelectedURL isUrl isLinkedUrl selection = []
   \/ exists u, Main.enhanceSelectedURL isUrl isLinkedUrl selection
                = [Main.ConvertUrlToCodeBlock (JString u)])
  /\ (isUrl (trim (Main.or_empty selection)) = false ->
      isLinkedUrl (trim (Main.or_empty selection)) = true ->
      test (linkRegex DEFAULT_SETTINGS) (trim (Main.or_empty selection)) = false ->
      Main.enhanceSelectedURL isUrl isLinkedUrl selection
      = [Main.ConvertUrlToCodeBlock (JString [])]).
Proof.
  unfold Main.enhanceSelectedURL. split.
  - destruct (isUrl (trim (Main.or_empty selection))); [right; eauto|].
    destruct (isLinkedUrl (trim (Main.or_empty selection))); [|left; reflexivity].
    right.
    destruct (test (linkRegex DEFAULT_SETTINGS) (trim (Main.or_empty selection))) eqn:T.
    + apply getUrlFromLink_match in T. destruct T as (label & url & _ & _ & _ & G).
      rewrite G. eauto.
    + apply getUrlFromLink_miss in T. rewrite T. eauto.
  - intros Hu Hl T. rewrite Hu, Hl. apply getUrlFromLink_miss in T.
    rewrite T. reflexivity.
Qed.

Lemma enhanceSelectedURL_one_conversion_witness :
  Main.enhanceSelectedURL (fun _ => false) (fun _ => true) (JString (js "plain words"))
  = [Main.ConvertUrlToCodeBlock (JString [])].
Proof.
  apply (proj2 (enhanceSelectedURL_one_conversion
                  (fun _ => false) (fun _ => true) (JString (js "plain words"))));
    reflexivity.
Defined.

(** X9: [manualPasteAndEnhanceURL] does nothing on a missing or empty
    clipboard text; on any other text it does exactly one thing, with the
    text unchanged: it asks for its conversion when on line and the text is
    a URL and no image, and replaces the selection by it otherwise. *)
Theorem manualPaste_one_action
    (isUrl isImage : jsstring -> bool) (onLine : bool) :
  Main.manualPasteAndEnhanceURL isUrl isImage JUndefined onLine = []
  /\ Main.manualPasteAndEnhanceURL isUrl isImage (JString []) onLine = []
  /\ forall text, text <> [] ->
       (onLine = true /\ isUrl text = true /\ isImage text = false
        /\ Main.manualPasteAndEnhanceURL isUrl isImage (JString text) onLine
           = [Main.ConvertUrlToCodeBlock (JString text)])
       \/ ((onLine = false \/ isUrl text = false \/ isImage text = true)
           /\ Main.manualPasteAndEnhanceURL isUrl isImage (JString text) onLine
              = [Main.ReplaceSelection text]).
Proof.
  split; [reflexivity|]. split; [reflexivity|].
  intros text Hne. unfold Main.manualPasteAndEnhanceURL.
  destruct text as [|c text]; [contradiction|].
  destruct onLine; simpl; [|right; auto].
  destruct (isUrl (c :: text)); simpl; [|right; auto].
  destruct (isImage (c :: text)); [right; auto | left; auto].
Qed.

Lemma manualPaste_one_action_witness :
  Main.manualPasteAndEnhanceURL
    (test (regex DEFAULT_SETTINGS)) (test (imageRegex DEFAULT_SETTINGS))
    (JString (js "https://example.com/page")) true
  = [Main.ConvertUrlToCodeBlock (JString (js "https://example.com/page"))].
Proof.
  destruct (proj2 (proj2 (manualPaste_one_action
              (test (regex DEFAULT_SETTINGS)) (test (imageRegex DEFAULT_SETTINGS))
              true)) (js "https://example.com/page")) as [H | H];
    [discriminate | apply H | ].
  exfalso. destruct H as [[H | [H | H]] _]; vm_compute in H; discriminate.
Defined.

(** X10: [onPaste] is all or nothing.  It takes the paste over (stops the
    event, prevents the default, asks for the conversion of the pasted
    text, in that order) exactly when the setting is on, the host is on
    line, the event carries data without files, and the text is not empty,
    is a URL and is no image; in every other case it does nothing, so no
    paste is ever swallowed. *)
Theorem onPaste_all_or_nothing
    (isUrl isImage : jsstring -> bool)
    (settings : option ObsidianAutoCardLinkSettings) (onLine : bool)
    (evt : Main.ClipboardEvent) :
  (Main.onPaste isUrl isImage settings onLine evt = []
   \/ exists s data,
        settings = Some s /\ enhanceDefaultPaste s = true /\ onLine = true
        /\ Main.clipboardData evt = Some data
        /\ Main.files_length data = 0 /\ Main.text_plain data <> []
        /\ isUrl (Main.text_plain data) = true
        /\ isImage (Main.text_plain data) = false
        /\ Main.onPaste isUrl isImage settings onLine evt
           = [Main.StopPropagation; Main.PreventDefault;
              Main.ConvertUrlToCodeBlock (JString (Main.text_plain data))])
  /\ (forall s data,
        settings = Some s -> enhanceDefaultPaste s = true -> onLine = true ->
        Main.clipboardData evt = Some data ->
        Main.files_length data = 0 -> Main.text_plain data <> [] ->
        isUrl (Main.text_plain data) = true ->
        isImage (Main.text_plain data) = false ->
        Main.onPaste isUrl isImage settings onLine evt
        = [Main.StopPropagation; Main.PreventDefault;
           Main.ConvertUrlToCodeBlock (JString (Main.text_plain data))]).
Proof.
  unfold Main.onPaste. split.
  - destruct settings as [s|]; [|left; reflexivity].
    destruct (enhanceDefaultPaste s) eqn:Es; [|left; reflexivity].
    destruct onLine; [|left; reflexivity]. cbn [negb].
    destruct (Main.clipboardData evt) as [data|] eqn:Ed; [|left; reflexivity].
    destruct (0 <? Main.files_length data) eqn:Ef; [left; reflexivity|].
    apply Nat.ltb_ge in Ef.
    destruct (Main.text_plain data) as [|c text] eqn:Et; [left; reflexivity|].
    destruct (isUrl (c :: text)) eqn:Eu; [|left; reflexivity].
    destruct (isImage (c :: text)) eqn:Ei; [left; reflexivity|].
    right. exists s, data.
    split; [reflexivity|]. split; [exact Es|]. split; [reflexivity|].
    split; [reflexivity|]. split; [lia|]. rewrite Et.
    split; [discriminate|]. split; [exact Eu|]. split; [exact Ei|]. reflexivity.
  - intros s data -> Es -> Ed Ef Hne Hu Hi. rewrite Es, Ed, Ef. cbn [negb Nat.ltb Nat.leb].
    destruct (Main.text_plain data) as [|c text]; [contradiction|].
    rewrite Hu, Hi. reflexivity.
Qed.

Lemma onPaste_all_or_nothing_witness :
  Main.onPaste (test (regex DEFAULT_SETTINGS)) (test (imageRegex DEFAULT_SETTINGS))
    (Some DEFAULT_SETTINGS) true
    {| Main.clipboardData :=
         Some {| Main.files_length := 0;
                 Main.text_plain := js "https://example.com/page" |} |}
  = [Main.StopPropagation; Main.PreventDefault;
     Main.ConvertUrlToCodeBlock (JString (js "https://example.com/page"))].
Proof.
  apply (proj2 (onPaste_all_or_nothing
                  (test (regex DEFAULT_SETTINGS)) (test (imageRegex DEFAULT_SETTINGS))
                  (Some DEFAULT_SETTINGS) true _)
           DEFAULT_SETTINGS
           {| Main.files_length := 0;
              Main.text_plain := js "https://example.com/page" |});
    try reflexivity.
  discriminate.
Defined.

Section EntryPoints.

Variable Editor : Type.
Variable getSelectedText : Editor -> jsval.
Variables isUrl isLinkedUrl isImage : jsstring -> bool.


(** X12: asking is not doing, and there is nothing to do without an
    editor: the command's callback run only to check does nothing and
    answers whether the host is on line, and a click on any menu item when
    no Markdown view is active does nothing. *)
Theorem probing_does_nothing :
  (forall onLine e,
     Plugin.enhanceSelectedCheckCallback getSelectedText isUrl isLinkedUrl
       onLine true e = (Some onLine, []))
  /\ (forall settings onLine item w,
        In item (Plugin.onEditorMenu getSelectedText isUrl isLinkedUrl isImage
                   settings onLine) ->
        Plugin.activeView w = None -> Plugin.onClick item w = []).
Proof.
  split.
  - intros [|] e; reflexivity.
  - intros settings onLine item w H Hw. unfold Plugin.onEditorMenu in H.
    destruct settings as [s|]; [destruct (showInMenuItem s)|]; simpl in H;
      try contradiction.
    destruct H as [<- | H]; [cbn [Plugin.onClick]; rewrite Hw; reflexivity|].
    destruct onLine; simpl in H; [|contradiction].
    destruct H as [<- | []]. cbn [Plugin.onClick]. rewrite Hw. reflexivity.
Qed.

(** X13: the two toggles of the setting tab.  Changing one changes that
    setting and no other, the changed settings are what is saved and what
    the tab then shows; with [Enhance Default Paste] switched off [onPaste]
    does nothing whatever is pasted, and with [Add commands in menu item]
    switched off [onEditorMenu] adds nothing. *)
Theorem toggles_take_effect (s : ObsidianAutoCardLinkSettings) (value : bool) :
  (exists s',
     SettingTab.onChangeEnhanceDefaultPaste (Some s) value = (Some s', [s'])
     /\ enhanceDefaultPaste s' = value
     /\ showInMenuItem s' = showInMenuItem s
     /\ (regex s', lineRegex s', linkRegex s', linkLineRegex s', imageRegex s')
        = (regex s, lineRegex s, linkRegex s, linkLineRegex s, imageRegex s)
     /\ map SettingTab.toggle (SettingTab.display (Some s'))
        = [Some value; Some (showInMenuItem s)]
     /\ (value = false ->
         forall onLine evt, Main.onPaste isUrl isImage (Some s') onLine evt = []))
  /\ (exists s',
        SettingTab.onChangeShowInMenuItem (Some s) value = (Some s', [s'])
        /\ showInMenuItem s' = value
        /\ enhanceDefaultPaste s' = enhanceDefaultPaste s
        /\ (regex s', lineRegex s', linkRegex s', linkLineRegex s', imageRegex s')
           = (regex s, lineRegex s, linkRegex s, linkLineRegex s, imageRegex s)
        /\ map SettingTab.toggle (SettingTab.display (Some s'))
           = [Some (enhanceDefaultPaste s); Some value]
        /\ (value = false ->
            forall onLine,
              Plugin.onEditorMenu getSelectedText isUrl isLinkedUrl isImage
                (Some s') onLine = [])).
Proof.
  split; eexists; (split; [reflexivity|]); repeat split; intros ->; reflexivity.
Qed.

End EntryPoints.


Lemma probing_does_nothing_witness :
  Plugin.onClick
    (hd {| Plugin.title := ""; Plugin.icon := ""; Plugin.onClick := fun _ => [] |}
       (Plugin.onEditorMenu (fun _ : unit => JUndefined)
          (test (regex DEFAULT_SETTINGS)) (test (linkRegex DEFAULT_SETTINGS))
          (test (imageRegex DEFAULT_SETTINGS)) (Some DEFAULT_SETTINGS) true))
    {| Plugin.activeView := None;
       Plugin.clipboardText := JString (js "https://example.com/page");
       Plugin.onLineNow := true |}
  = [].
Proof.
  apply (proj2 (probing_does_nothing (fun _ : unit => JUndefined)
                  (test (regex DEFAULT_SETTINGS)) (test (linkRegex DEFAULT_SETTINGS))
                  (test (imageRegex DEFAULT_SETTINGS)))
           (Some DEFAULT_SETTINGS) true).
  - left. reflexivity.
  - reflexivity.
Defined.

Lemma toggles_take_effect_witness :
  Main.onPaste (test (regex DEFAULT_SETTINGS)) (test (imageRegex DEFAULT_SETTINGS))
    (fst (SettingTab.onChangeEnhanceDefaultPaste (Some DEFAULT_SETTINGS) false))
    true
    {| Main.clipboardData :=
         Some {| Main.files_length := 0;
                 Main.text_plain := js "https://example.com/page" |} |}
  = [].
Proof.
  destruct (proj1 (toggles_take_effect (fun _ : unit => JUndefined)
                     (test (regex DEFAULT_SETTINGS)) (test (linkRegex DEFAULT_SETTINGS))
                     (test (imageRegex DEFAULT_SETTINGS)) DEFAULT_SETTINGS false))
    as (s' & E & _ & _ & _ & _ & H).
  rewrite E. exact (H eq_refl _ _).
Defined.

(** ** White space around the selection *)

Lemma trimStart_ws_app pre x :
  forallb is_ws pre = true -> trimStart (pre ++ x) = trimStart x.
Proof.
  induction pre as [|c pre IH]; simpl; [reflexivity|].
  intros H. apply andb_prop in H. destruct H as [Hc H].
  rewrite Hc. apply IH. exact H.
Qed.

Lemma trimStart_all_ws w : forallb is_ws w = true -> trimStart w = [].
Proof.
  intros H. rewrite <- (app_nil_r w), trimStart_ws_app; auto.
Qed.

Lemma trimEnd_app_ws x post :
  forallb is_ws post = true -> trimEnd (x ++ post) = trimEnd x.
Proof.
  intros H. unfold trimEnd. rewrite rev_app_distr, trimStart_ws_app; [reflexivity|].
  rewrite forallb_rev. exact H.
Qed.

Lemma trimStart_app_ws s post :
  forallb is_ws post = true ->
  trimEnd (trimStart (s ++ post)) = trimEnd (trimStart s).
Proof.
  intros H. induction s as [|c s IH]; simpl.
  - rewrite (trimStart_all_ws _ H). reflexivity.
  - destruct (is_ws c); [exact IH|].
    change (c :: s ++ post) with ((c :: s) ++ post).
    apply trimEnd_app_ws. exact H.
Qed.

Lemma trim_padding pre s post :
  forallb is_ws pre = true -> forallb is_ws post = true ->
  trim (pre ++ s ++ post) = trim s.
Proof.
  intros Hpre Hpost. unfold trim.
  rewrite trimStart_ws_app; [|exact Hpre].
  apply trimStart_app_ws. exact Hpost.
Qed.

(** X14: white space around the selection makes no difference to
    [enhanceSelectedURL]: with any white space added before and after the
    selected text it does what it does on the text alone. *)
Theorem enhanceSelectedURL_padding
    (isUrl isLinkedUrl : jsstring -> bool) (pre s post : jsstring) :
  forallb is_ws pre = true -> forallb is_ws post = true ->
  Main.enhanceSelectedURL isUrl isLinkedUrl (JString (pre ++ s ++ post))
  = Main.enhanceSelectedURL isUrl isLinkedUrl (JString s).
Proof.
  intros Hpre Hpost. unfold Main.enhanceSelectedURL. cbn [Main.or_empty].
  rewrite (trim_padding pre s post Hpre Hpost). reflexivity.
Qed.

Lemma enhanceSelectedURL_padding_witness :
  Main.enhanceSelectedURL
    (test (regex DEFAULT_SETTINGS)) (test (linkRegex DEFAULT_SETTINGS))
    (JString (js "  " ++ js "www.example.org/a" ++ [10%N]))
  = Main.enhanceSelectedURL
      (test (regex DEFAULT_SETTINGS)) (test (linkRegex DEFAULT_SETTINGS))
      (JString (js "www.example.org/a")).
Proof. apply enhanceSelectedURL_padding; reflexivity. Defined.

(** X15: what the bare-URL pattern accepts stays accepted when units that
    are not white space are added at its end: the pattern sets no limit to
    the right other than white space, so a bracket or a full stop that
    follows a URL belongs to it. *)
Theorem url_extends_right u v :
  test (regex DEFAULT_SETTINGS) u = true ->
  forallb (fun c => negb (is_ws c)) v = true ->
  test (regex DEFAULT_SETTINGS) (u ++ v) = true.
Proof.
  intros Hu Hv. apply url_regex_spec in Hu. apply url_regex_spec.
  destruct Hu as (p & l & t & -> & Hp & Hl & Ht).
  exists p, l, (t ++ v). split.
  - rewrite <- !app_assoc. reflexivity.
  - split; [exact Hp|]. split; [exact Hl|].
    unfold is_tail in *. apply andb_prop in Ht. destruct Ht as [Len Ht].
    apply Nat.leb_le in Len. apply andb_true_intro. split.
    + apply Nat.leb_le. rewrite length_app. unfold jsstring, code_unit in *. lia.
    + rewrite forallb_app. apply andb_true_intro. auto.
Qed.

Lemma url_extends_right_witness :
  test (regex DEFAULT_SETTINGS) (js "https://example.com" ++ js ").") = true.
Proof. apply url_extends_right; reflexivity. Defined.

(** * A URL among other words *)

Lemma no_ws_prefix_of (u : jsstring) : forall q r w rest,
  no_ws u = true -> is_ws w = true ->
  u ++ r = q ++ w :: rest -> exists q2, q = u ++ q2.
Proof.
  induction u as [|x u IH]; intros q r w rest Hu Hw E.
  - exists q. reflexivity.
  - simpl in Hu. apply andb_prop in Hu. destruct Hu as [Hx Hu].
    destruct q as [|y q]; simpl in E.
    + injection E as -> _. rewrite Hw in Hx. discriminate.
    + injection E as -> E. destruct (IH q r w rest Hu Hw E) as (q2 & ->).
      exists q2. reflexivity.
Qed.

Lemma line_run_none_shift pos pos' rest :
  run true (RGroup 1 url_body) (MState pos rest []) Some = None ->
  run true (RGroup 1 url_body) (MState pos' rest []) Some = None.
Proof.
  intros H.
  destruct (run true (RGroup 1 url_body) (MState pos' rest []) Some) eqn:E;
    [|reflexivity].
  exfalso. apply line_run_sound in E. destruct E as (u & Hu & -> & _).
  revert H. apply line_run_complete. exact Hu.
Qed.

Lemma scan_none_inv pos c rest :
  match_all_from (lineRegex DEFAULT_SETTINGS) 0 pos (c :: rest) = [] ->
  run true (RGroup 1 url_body) (MState pos (c :: rest) []) Some = None
  /\ match_all_from (lineRegex DEFAULT_SETTINGS) 0 (S pos) rest = [].
Proof.
  cbn [match_all_from]. destruct line_pattern as [-> ->].
  destruct (run true (RGroup 1 url_body) (MState pos (c :: rest) []) Some);
    [discriminate | auto].
Qed.

Lemma scan_none_shift rest : forall pos pos',
  match_all_from (lineRegex DEFAULT_SETTINGS) 0 pos rest = [] ->
  match_all_from (lineRegex DEFAULT_SETTINGS) 0 pos' rest = [].
Proof.
  induction rest as [|c rest IH]; intros pos pos' H.
  - cbn [match_all_from]. destruct line_pattern as [-> ->].
    rewrite line_run_ws; [reflexivity | exact I].
  - apply scan_none_inv in H. destruct H as [R H].
    cbn [match_all_from]. destruct line_pattern as [-> ->].
    rewrite (@line_run_none_shift pos pos' _ R). eapply IH, H.
Qed.

Lemma ends_in_space_tail c pre : ends_in_space (c :: pre) -> ends_in_space pre.
Proof.
  unfold ends_in_space. simpl. destruct (rev pre) as [|w t]; simpl; auto.
Qed.

Lemma ends_in_space_last c pre :
  ends_in_space (c :: pre) -> exists q w, c :: pre = q ++ [w] /\ is_ws w = true.
Proof.
  unfold ends_in_space. intros H.
  destruct (rev (c :: pre)) as [|w t] eqn:E.
  - apply (f_equal (@List.length _)) in E. rewrite length_rev in E. discriminate.
  - exists (rev t), w. split; [|exact H].
    rewrite <- (rev_involutive (c :: pre)), E. reflexivity.
Qed.

(** Words that end in white space and hold no URL add nothing to the scan
    of what follows them. *)
Lemma scan_prefix_none pre : forall pos rest,
  ends_in_space pre ->
  match_all_from (lineRegex DEFAULT_SETTINGS) 0 pos pre = [] ->
  match_all_from (lineRegex DEFAULT_SETTINGS) 0 pos (pre ++ rest)
  = match_all_from (lineRegex DEFAULT_SETTINGS) 0 (pos + List.length pre) rest.
Proof.
  induction pre as [|c pre IH]; intros pos rest Hs H.
  - simpl. rewrite Nat.add_0_r. reflexivity.
  - pose proof (@scan_none_inv _ _ _ H) as [R H'].
    cbn [app match_all_from]. destruct line_pattern as [-> ->].
    destruct (run true (RGroup 1 url_body) (MState pos (c :: pre ++ rest) []) Some)
      as [st|] eqn:E.
    + exfalso. apply line_run_sound in E. destruct E as (u & Hu & E & _).
      destruct (@ends_in_space_last _ _ Hs) as (q & w & Eq & Hw).
      change (c :: pre ++ rest) with ((c :: pre) ++ rest) in E.
      rewrite Eq, <- app_assoc in E. simpl in E. symmetry in E.
      destruct (bare_url_no_ws Hu) as [Hn _].
      destruct (@no_ws_prefix_of _ _ _ _ _ Hn Hw E) as (q2 & ->).
      revert R. rewrite Eq, <- app_assoc. apply line_run_complete. exact Hu.
    + rewrite IH; [|eapply ends_in_space_tail; exact Hs | exact H'].
      f_equal. simpl. lia.
Qed.

Lemma ink_app x y : ink (x ++ y) = ink x ++ ink y.
Proof. apply filter_app. Qed.

Lemma ink_all_ws x : forallb is_ws x = true -> ink x = [].
Proof.
  induction x as [|c x IH]; simpl; [reflexivity|].
  intros H. apply andb_prop in H. destruct H as [-> H]. simpl. auto.
Qed.

Lemma ink_no_ws u : no_ws u = true -> ink u = u.
Proof.
  induction u as [|c u IH]; simpl; [reflexivity|].
  intros H. apply andb_prop in H. destruct H as [-> H]. rewrite IH; auto.
Qed.

Lemma ink_nil x : ink x = [] -> has_word x = false.
Proof.
  unfold has_word. induction x as [|c x IH]; simpl; [reflexivity|].
  destruct (is_ws c); simpl; [exact IH | discriminate].
Qed.

Lemma scan_trimmed s :
  bare_url (trim s) -> match_all (lineRegex DEFAULT_SETTINGS) s = [trim s].
Proof.
  intros H. unfold match_all.
  destruct (trim_spec s) as (pre & post & E & Hpre & Hpost).
  rewrite E at 1. rewrite scan_leading; [|exact Hpre].
  apply scan_at; auto.
Qed.

(** A URL set among words that hold no URL is the one match of the scan. *)
Lemma scan_among_words pre u post :
  bare_url u -> ends_in_space pre -> ws_or_end post ->
  match_all (lineRegex DEFAULT_SETTINGS) pre = [] ->
  match_all (lineRegex DEFAULT_SETTINGS) post = [] ->
  match_all (lineRegex DEFAULT_SETTINGS) (pre ++ u ++ post) = [u].
Proof.
  intros Hu Hpre Hpost Spre Spost. unfold match_all in *.
  rewrite scan_prefix_none; [|exact Hpre | exact Spre].
  rewrite scan_at_more; [|exact Hu | exact Hpost].
  f_equal. eapply scan_none_shift, Spost.
Qed.

(** With a word before or after it, the text is no URL as a whole. *)
Lemma among_words_not_url pre u post :
  bare_url u -> has_word pre || has_word post = true ->
  match_all (lineRegex DEFAULT_SETTINGS) (pre ++ u ++ post) = [u] ->
  test (regex DEFAULT_SETTINGS) (trim (pre ++ u ++ post)) = false.
Proof.
  intros Hu Hw S.
  destruct (test (regex DEFAULT_SETTINGS) (trim (pre ++ u ++ post))) eqn:T;
    [|reflexivity].
  exfalso. apply url_regex_spec in T.
  rewrite (@scan_trimmed _ T) in S. injection S as S.
  destruct (trim_spec (pre ++ u ++ post)) as (a & b & E & Ha & Hb).
  rewrite S in E. apply (f_equal ink) in E.
  rewrite !ink_app, (@ink_all_ws _ Ha), (@ink_all_ws _ Hb) in E.
  destruct (bare_url_no_ws Hu) as [Hn _]. rewrite (@ink_no_ws _ Hn) in E.
  simpl in E. rewrite app_nil_r in E.
  assert (L : List.length (ink pre) + List.length (ink post) = 0).
  { apply (f_equal (@List.length _)) in E. rewrite !length_app in E.
    unfold jsstring, code_unit in *. lia. }
  assert (Ep : ink pre = []) by (destruct (ink pre); [reflexivity | simpl in L; lia]).
  assert (Eq : ink post = [])
    by (destruct (ink post); [reflexivity | simpl in L; lia]).
  rewrite (@ink_nil _ Ep), (@ink_nil _ Eq) in Hw. discriminate.
Qed.

(** C7: the line scan reads the same grammar as [isUrl], without the
    anchors.  A string that [isUrl] accepts is, once trimmed, the one match
    of the line scan on it, and every match of the line scan is accepted by
    [isUrl].  A URL among other words (set apart from them by white space,
    the words holding no URL themselves) is the one match of the line scan
    on the text, while [isUrl] rejects the text; so it is on
    [see https://example.com]. *)
Theorem scanLine_same_grammar :
  (forall s, CheckIf.isUrl s = true -> CheckIf.scanLine s = [trim s])
  /\ (forall s u, In u (CheckIf.scanLine s) -> CheckIf.isUrl u = true)
  /\ (forall pre u post,
        test (regex DEFAULT_SETTINGS) u = true ->
        ends_in_space pre -> ws_or_end post ->
        has_word pre || has_word post = true ->
        CheckIf.scanLine pre = [] -> CheckIf.scanLine post = [] ->
        CheckIf.isUrl (pre ++ u ++ post) = false
        /\ CheckIf.scanLine (pre ++ u ++ post) = [u])
  /\ CheckIf.isUrl (js "see https://example.com") = false
  /\ CheckIf.scanLine (js "see https://example.com") = [js "https://example.com"].
Proof.
  split; [|split; [|split; [|split; reflexivity]]].
  - intros s H. apply (proj1 (url_regex_spec _)) in H.
    apply scan_trimmed. exact H.
  - intros s u H. unfold CheckIf.scanLine, match_all in H.
    apply scan_bare_url in H. unfold CheckIf.isUrl.
    rewrite trim_no_ws; [|apply bare_url_no_ws; exact H].
    apply url_regex_spec. exact H.
  - intros pre u post Hu Hpre Hpost Hw Spre Spost.
    apply url_regex_spec in Hu. unfold CheckIf.scanLine in *.
    pose proof (@scan_among_words _ _ _ Hu Hpre Hpost Spre Spost) as S.
    split; [|exact S].
    unfold CheckIf.isUrl. apply among_words_not_url; assumption.
Qed.

Lemma scanLine_same_grammar_witness :
  CheckIf.scanLine (js "  www.example.org/a ") = [trim (js "  www.example.org/a ")]
  /\ CheckIf.isUrl (js "www.example.org/a") = true
  /\ CheckIf.isUrl (js "read " ++ js "www.example.org/a" ++ js " and (www.x) too")
     = false
  /\ CheckIf.scanLine (js "read " ++ js "www.example.org/a" ++ js " and (www.x) too")
     = [js "www.example.org/a"].
Proof.
  split; [|split].
  - apply (proj1 scanLine_same_grammar). reflexivity.
  - apply (proj1 (proj2 scanLine_same_grammar) (js "see www.example.org/a now")).
    vm_compute. left. reflexivity.
  - apply (proj1 (proj2 (proj2 scanLine_same_grammar))); reflexivity.
Defined.
